(** * The CDR dashboard: record synchronisation, verification and derived views

    A shallow embedding of [react-dashboard/src/pages/Dashboard.js]: the
    refresh cycle [fetchCDRs] with its per-record verification fan-out, the
    search filter [filterCDRs] / [handleSearch] and the counters of
    [getStats], over a small model of the JavaScript values the component
    receives from its backend client. *)

From Stdlib Require Import Floats Ascii.
From stdpp Require Import gmap strings list fin_maps pretty.

Local Set Warnings "-register-all".

(** ** JavaScript values, property reads and completions *)

Module JS.

(** A string value: the sequence of its UTF-16 code units, each a number
    (below 65536; nothing here rests on that bound). *)
Definition jsstring : Type := list N.

(** A string literal of the source or of an example, whose characters are
    all ASCII: each is its own code unit. *)
Definition js (s : string) : jsstring :=
  N_of_ascii <$> String.list_ascii_of_string s.
Coercion js : string >-> jsstring.

(** The values that travel between the backend client and the component: what
    a parsed response can hold.  Numbers are IEEE doubles, objects are finite
    maps from property names to values. *)
Inductive value : Type :=
  | VUndefined
  | VNull
  | VBool (b : bool)
  | VNumber (x : float)
  | VString (s : jsstring)
  | VArray (l : list value)
  | VObject (o : gmap string value).

(** What a [throw] or a rejected promise carries: the [TypeError] raised by the
    engine itself, or any value given as the reason. *)
Inductive thrown : Type :=
  | TypeError
  | Reason (v : value).

(** The outcome of evaluating an expression or of awaiting a promise. *)
Inductive completion (A : Type) : Type :=
  | Normal (a : A)
  | Throw (e : thrown).
Global Arguments Normal {A} a.
Global Arguments Throw {A} e.

Definition bind {A B} (c : completion A) (f : A → completion B) : completion B :=
  match c with
  | Normal a => f a
  | Throw e => Throw e
  end.

(** [try { body } catch (err) { handler }] *)
Definition try_catch {A} (body : completion A) (handler : thrown → completion A)
  : completion A :=
  match body with
  | Normal a => Normal a
  | Throw e => handler e
  end.

(** ToBoolean. *)
Definition truthy (v : value) : bool :=
  match v with
  | VUndefined | VNull => false
  | VBool b => b
  | VNumber x => negb (PrimFloat.eqb x 0%float || PrimFloat.is_nan x)
  | VString s => match s with [] => false | _ :: _ => true end
  | VArray _ | VObject _ => true
  end.

(** [o.k] on an object: the property, or [undefined] when it is absent. *)
Definition prop (o : gmap string value) (k : string) : value :=
  default VUndefined (o !! k).

(** [v.k] for the property names this component reads ([cdrs], [ipfs_cid],
    [verified], [message]): a [TypeError] on [undefined] and [null], the
    property on an object, and [undefined] on the other values, none of which
    has a property of one of these names. *)
Definition get (v : value) (k : string) : completion value :=
  match v with
  | VUndefined | VNull => Throw TypeError
  | VObject o => Normal (prop o k)
  | VBool _ | VNumber _ | VString _ | VArray _ => Normal VUndefined
  end.

(** [err.message], read for a log line: what matters is whether the read
    throws, which it does on [undefined] and [null]. *)
Definition read_message (e : thrown) : completion unit :=
  match e with
  | TypeError => Normal tt
  | Reason v => bind (get v "message") (λ _, Normal tt)
  end.

(** [v === 'lit'] *)
Definition strict_eq_string (v : value) (lit : jsstring) : bool :=
  match v with
  | VString s => bool_decide (s = lit)
  | _ => false
  end.

(** [{ ...v }]: the own enumerable properties of [v].  An object gives its
    properties, an array its elements and a string its characters under their
    indices, anything else nothing. *)
Definition spread (v : value) : gmap string value :=
  match v with
  | VObject o => o
  | VArray l => list_to_map (imap (λ i x, (pretty i, x)) l)
  | VString s => list_to_map (imap (λ i c, (pretty i, VString [c])) s)
  | VUndefined | VNull | VBool _ | VNumber _ => ∅
  end.

(** The elements of [v] when [v.map(...)] can be called, a [TypeError] when
    [v] has no [map] method. *)
Definition elements_for_map (v : value) : completion (list value) :=
  match v with
  | VArray l => Normal l
  | _ => Throw TypeError
  end.

(** *** String built-ins *)

(** [s.toLowerCase()]: the case conversion of the engine, taken as it is.  It
    is a function of the whole string (it may look at the neighbours of a
    character and change the length); all that is used of it is that the
    lower case of the empty string is the empty string. *)
Class CaseMapping : Type := {
  toLowerCase : jsstring → jsstring;
  toLowerCase_empty : toLowerCase [] = []
}.

(** The white space and the line terminators of the language, which [trim]
    strips: TAB, LF, VT, FF, CR, SP, NBSP, U+1680, U+2000 to U+200A, U+2028,
    U+2029, U+202F, U+205F, U+3000 and U+FEFF. *)
Definition is_whitespace (c : N) : bool :=
  ((9 <=? c)%N && (c <=? 13)%N) || (c =? 32)%N || (c =? 160)%N || (c =? 5760)%N
  || ((8192 <=? c)%N && (c <=? 8202)%N) || (c =? 8232)%N || (c =? 8233)%N
  || (c =? 8239)%N || (c =? 8287)%N || (c =? 12288)%N || (c =? 65279)%N.

Fixpoint trimStart (s : jsstring) : jsstring :=
  match s with
  | [] => []
  | c :: s' => if is_whitespace c then trimStart s' else s
  end.

Fixpoint trimEnd (s : jsstring) : jsstring :=
  match s with
  | [] => []
  | c :: s' =>
      match trimEnd s' with
      | [] => if is_whitespace c then [] else [c]
      | r => c :: r
      end
  end.

(** [s.trim()] *)
Definition trim (s : jsstring) : jsstring := trimEnd (trimStart s).

(** [s.startsWith(t)] *)
Fixpoint startsWith (s t : jsstring) {struct t} : bool :=
  match t, s with
  | [], _ => true
  | _ :: _, [] => false
  | b :: t', a :: s' => (a =? b)%N && startsWith s' t'
  end.

(** [s.includes(t)]: [t] occurs in [s] at some position. *)
Fixpoint includes (s t : jsstring) : bool :=
  startsWith s t ||
  match s with
  | [] => false
  | _ :: s' => includes s' t
  end.

End JS.

(** ** The component *)

Module Dashboard.
Import JS.

Global Instance completion_ret : MRet completion := @Normal.
Global Instance completion_bind : MBind completion := λ A B f c, bind c f.

(** *** State and its setters *)

(** The six [useState] cells of the component.  [cdrs] only ever holds what
    [setCdrs] was given, an array of freshly built objects; [error] is [null]
    or a message; [lastRefresh] is a [Date], as milliseconds. *)
Record State : Type := mkState {
  cdrs : list (gmap string value);
  filteredCdrs : list (gmap string value);
  loading : bool;
  error : option string;
  searchTerm : jsstring;
  lastRefresh : Z
}.

(** The state at mount, [t0] being the [new Date()] of the first render. *)
Definition initial (t0 : Z) : State :=
  {| cdrs := []; filteredCdrs := []; loading := true; error := None;
     searchTerm := ""; lastRefresh := t0 |}.

Inductive update : Type :=
  | setCdrs (l : list (gmap string value))
  | setFilteredCdrs (l : list (gmap string value))
  | setLoading (b : bool)
  | setError (e : option string)
  | setSearchTerm (s : jsstring)
  | setLastRefresh (t : Z).

Definition apply_update (st : State) (u : update) : State :=
  match u with
  | setCdrs l =>
      mkState l (filteredCdrs st) (loading st) (error st) (searchTerm st) (lastRefresh st)
  | setFilteredCdrs l =>
      mkState (cdrs st) l (loading st) (error st) (searchTerm st) (lastRefresh st)
  | setLoading b =>
      mkState (cdrs st) (filteredCdrs st) b (error st) (searchTerm st) (lastRefresh st)
  | setError e =>
      mkState (cdrs st) (filteredCdrs st) (loading st) e (searchTerm st) (lastRefresh st)
  | setSearchTerm s =>
      mkState (cdrs st) (filteredCdrs st) (loading st) (error st) s (lastRefresh st)
  | setLastRefresh t =>
      mkState (cdrs st) (filteredCdrs st) (loading st) (error st) (searchTerm st) t
  end.

Definition apply_updates (st : State) (us : list update) : State :=
  foldl apply_update st us.

(** *** Handlers: the setter calls made so far, and how the code completed *)

Definition action (A : Type) : Type := (list update * completion A)%type.

Global Instance action_ret : MRet action := λ A a, ([], Normal a).
Global Instance action_bind : MBind action := λ A B f m,
  match m.2 with
  | Normal a => (m.1 ++ (f a).1, (f a).2)
  | Throw e => (m.1, Throw e)
  end.

Definition call (u : update) : action unit := ([u], Normal tt).
Definition eval {A} (c : completion A) : action A := ([], c).

(** [try { body } catch (err) { handler } finally { cleanup }] *)
Definition try_catch_finally {A} (body : action A) (handler : thrown → action A)
    (cleanup : action unit) : action A :=
  let caught :=
    match body.2 with
    | Normal a => body
    | Throw e => (body.1 ++ (handler e).1, (handler e).2)
    end in
  match cleanup.2 with
  | Normal _ => (caught.1 ++ cleanup.1, caught.2)
  | Throw e => (caught.1 ++ cleanup.1, Throw e)
  end.

(** The setter calls a handler made, and the state they leave. *)
Definition calls {A} (m : action A) : list update := m.1.
Definition outcome {A} (m : action A) : completion A := m.2.
Definition run {A} (st : State) (m : action A) : State := apply_updates st (calls m).

(** *** The backend client *)

(** The two operations of [cdrAPI] the component calls, each given by how its
    promise settles: [getAllCDRs()], and [verifyCDR(i, cid)] per index and
    storage reference. *)
Record cdrAPI : Type := {
  getAllCDRs : completion value;
  verifyCDR : nat → value → completion value
}.

(** *** fetchCDRs *)

(** The callback of [records.map]: one verification call, its result or its
    failure folded into a copy of the record. *)
Definition verify_one (api : cdrAPI) (i : nat) (cdr : value)
  : completion (gmap string value) :=
  try_catch
    (cid ← get cdr "ipfs_cid";
     verifyRes ← verifyCDR api i cid;
     v ← get verifyRes "verified";
     Normal (<["verified" := v]> (spread cdr)))
    (λ err,
     read_message err;;
     Normal (<["verified" := VBool false]> (spread cdr))).

(** [await Promise.all(ps)]: every result in order, or the rejection of a
    promise that rejected (which one is immaterial to the caller below). *)
Fixpoint promise_all {A} (ps : list (completion A)) : completion (list A) :=
  match ps with
  | [] => Normal []
  | p :: ps' => a ← p; l ← promise_all ps'; Normal (a :: l)
  end.

Definition verifiedResults (api : cdrAPI) (records : list value)
  : completion (list (gmap string value)) :=
  promise_all (imap (verify_one api) records).

(** What [verify_one] writes into [verified]: the [verified] property of the
    reply when the call and both property reads go through, [false] else. *)
Definition verdict (api : cdrAPI) (i : nat) (cdr : value) : value :=
  match get cdr "ipfs_cid" with
  | Normal cid =>
      match verifyCDR api i cid with
      | Normal res =>
          match get res "verified" with
          | Normal v => v
          | Throw _ => VBool false
          end
      | Throw _ => VBool false
      end
  | Throw _ => VBool false
  end.

Definition fetch_failed : string :=
  "Failed to fetch CDR data. Please check if the backend is running.".

(** One refresh, [now] being the [new Date()] read after the records are set. *)
Definition fetchCDRs (api : cdrAPI) (now : Z) : action unit :=
  try_catch_finally
    (call (setLoading true);;
     call (setError None);;
     response ← eval (getAllCDRs api);
     c ← eval (get response "cdrs");
     let records := if truthy c then c else VArray [] in
     elems ← eval (elements_for_map records);
     results ← eval (verifiedResults api elems);
     call (setCdrs results);;
     call (setLastRefresh now))
    (λ err, call (setError (Some fetch_failed)))
    (call (setLoading false)).

(** What the [try] block of [fetchCDRs] waits for before it sets anything:
    the listing, its [cdrs] or the empty array, and their verification. *)
Definition fetched (api : cdrAPI) : completion (list (gmap string value)) :=
  response ← getAllCDRs api;
  c ← get response "cdrs";
  elems ← elements_for_map (if truthy c then c else VArray []);
  verifiedResults api elems.

(** *** filterCDRs and handleSearch *)

(** [l.filter(f)] for a callback that may throw. *)
Fixpoint array_filter {A} (f : A → completion bool) (l : list A) : completion (list A) :=
  match l with
  | [] => Normal []
  | x :: l' =>
      b ← f x;
      r ← array_filter f l';
      Normal (if (b : bool) then x :: r else r)
  end.

Section searching.
Context {casing : CaseMapping}.

(** [v.toLowerCase().includes(searchValue.toLowerCase())]: only a string has
    the method. *)
Definition lower_includes (v : value) (searchValue : jsstring) : completion bool :=
  match v with
  | VString s => Normal (includes (toLowerCase s) (toLowerCase searchValue))
  | _ => Throw TypeError
  end.

(** The predicate given to [cdrs.filter], its operands read left to right and
    only as far as [||] and [&&] need. *)
Definition matches (searchValue : jsstring) (cdr : gmap string value)
  : completion bool :=
  a ← lower_includes (prop cdr "caller") searchValue;
  if (a : bool) then Normal true else
  b ← lower_includes (prop cdr "callee") searchValue;
  if (b : bool) then Normal true else
  c ← lower_includes (prop cdr "hash") searchValue;
  if (c : bool) then Normal true else
  if truthy (prop cdr "ipfs_cid") then lower_includes (prop cdr "ipfs_cid") searchValue
  else Normal false.

Definition filterCDRs (st : State) (searchValue : jsstring) : action unit :=
  if negb (truthy (VString (trim searchValue))) then
    call (setFilteredCdrs (cdrs st))
  else
    filtered ← eval (array_filter (matches searchValue) (cdrs st));
    call (setFilteredCdrs filtered).

Definition handleSearch (st : State) (searchValue : jsstring) : action unit :=
  call (setSearchTerm searchValue);;
  filterCDRs st searchValue.

End searching.

(** *** getStats *)

Record Stats : Type := mkStats {
  total : nat;
  verified : nat;
  withIPFS : nat;
  errors : nat
}.

Definition getStats (st : State) : Stats :=
  {| total := length (cdrs st);
     verified :=
       length (List.filter
         (λ cdr, strict_eq_string (prop cdr "status") "verified"
                 || truthy (prop cdr "verified")) (cdrs st));
     withIPFS := length (List.filter (λ cdr, truthy (prop cdr "ipfs_cid")) (cdrs st));
     errors :=
       length (List.filter
         (λ cdr, strict_eq_string (prop cdr "status") "error"
                 || strict_eq_string (prop cdr "status") "mismatch") (cdrs st)) |}.

End Dashboard.

(** ** What the specification says, in its own words *)

Module Spec.
Import JS Dashboard.

(** *** Strings *)

(** [t] occurs in [s]. *)
Definition substring (t s : jsstring) : Prop :=
  ∃ pre post, s = pre ++ t ++ post.

(** Every character of [s] is white space; the empty string is. *)
Fixpoint whitespace_only (s : jsstring) : Prop :=
  match s with
  | [] => True
  | c :: s' => is_whitespace c = true ∧ whitespace_only s'
  end.

(** *** Sequences *)

(** [l'] is the subsequence of [l], in the order of [l], of the elements
    that satisfy [P]. *)
Inductive selects {A} (P : A → Prop) : list A → list A → Prop :=
  | selects_nil : selects P [] []
  | selects_keep x l l' : P x → selects P l l' → selects P (x :: l) (x :: l')
  | selects_drop x l l' : ¬ P x → selects P l l' → selects P (x :: l) l'.

(** [n] is the count of the elements of [l] that satisfy [P]. *)
Definition counts {A} (P : A → Prop) (l : list A) (n : nat) : Prop :=
  ∃ l', selects P l l' ∧ length l' = n.

(** *** Records *)

Definition is_string (v : value) : bool :=
  match v with VString _ => true | _ => false end.

Definition optional_string (v : value) : bool :=
  match v with VUndefined | VNull | VString _ => true | _ => false end.

Definition optional_boolean (v : value) : bool :=
  match v with VUndefined | VNull | VBool _ => true | _ => false end.

(** A Record of the data model: [caller], [callee] and [hash] are strings,
    the storage reference [ipfs_cid] is an optional string and [verified] a
    boolean when it is set.  Nothing is asked of [status] nor of any further
    property. *)
Definition is_record (cdr : gmap string value) : bool :=
  is_string (prop cdr "caller") && is_string (prop cdr "callee")
  && is_string (prop cdr "hash") && optional_string (prop cdr "ipfs_cid")
  && optional_boolean (prop cdr "verified").

Definition status_is (s : jsstring) (cdr : gmap string value) : Prop :=
  prop cdr "status" = VString s.

(** [status == "verified"] OR [verified == true] *)
Definition counted_verified (cdr : gmap string value) : Prop :=
  status_is "verified" cdr ∨ prop cdr "verified" = VBool true.

(** the storage reference is present and non-empty *)
Definition counted_with_storage (cdr : gmap string value) : Prop :=
  ∃ s, prop cdr "ipfs_cid" = VString s ∧ s ≠ [].

(** [status == "error"] OR [status == "mismatch"] *)
Definition counted_error (cdr : gmap string value) : Prop :=
  status_is "error" cdr ∨ status_is "mismatch" cdr.

Section matching.
Context {casing : CaseMapping}.

(** The lowercase [term] is a substring of the lowercase string held by the
    property [k], which is there. *)
Definition field_contains (term : jsstring) (cdr : gmap string value) (k : string)
  : Prop :=
  ∃ s, prop cdr k = VString s ∧ substring (toLowerCase term) (toLowerCase s).

(** A record matches when any of its four searched fields does. *)
Definition term_matches (term : jsstring) (cdr : gmap string value) : Prop :=
  field_contains term cdr "caller" ∨ field_contains term cdr "callee"
  ∨ field_contains term cdr "hash" ∨ field_contains term cdr "ipfs_cid".

End matching.

(** *** The verification client *)

(** A failure whose [message] can be read: any thrown value but [undefined]
    and [null]. *)
Definition is_error (e : thrown) : bool :=
  match e with
  | Reason VUndefined | Reason VNull => false
  | _ => true
  end.

(** How a verification call has to settle for the step to give every record
    a boolean: resolved, it answers an object whose [verified] is a boolean,
    the [{verified: boolean}] of the client's interface; rejected, it gives a
    reason whose [message] the handler can read.  The second condition is
    read off the handler of the callback, the interface does not have it. *)
Definition verify_reply (c : completion value) : Prop :=
  match c with
  | Normal res => ∃ o b, res = VObject o ∧ o !! "verified" = Some (VBool b)
  | Throw e => is_error e = true
  end.

Definition conforms (api : cdrAPI) : Prop :=
  ∀ i cid, verify_reply (verifyCDR api i cid).

(** The part of [conforms] about failures alone. *)
Definition fails_with_error (api : cdrAPI) : Prop :=
  ∀ i cid e, verifyCDR api i cid = Throw e → is_error e = true.

End Spec.

Module Examples.
Import JS Dashboard Spec.

Definition error_value (message : string) : thrown :=
  Reason (VObject {[ "message" := VString message ]}).

Definition verified_reply (b : bool) : completion value :=
  Normal (VObject {[ "verified" := VBool b ]}).

Definition rec1 : gmap string value :=
  {[ "caller" := VString "A"; "callee" := VString "B"; "hash" := VString "h1";
     "status" := VString "verified" ]}.

Definition rec2 : gmap string value :=
  {[ "caller" := VString "C"; "callee" := VString "D"; "hash" := VString "h2";
     "status" := VString "error" ]}.

Definition listing (l : list (gmap string value)) : completion value :=
  Normal (VObject {[ "cdrs" := VArray (VObject <$> l) ]}).

(** Every record verifies. *)
Definition api_ok : cdrAPI :=
  {| getAllCDRs := listing [rec1; rec2];
     verifyCDR := λ _ _, verified_reply true |}.

(** The verification of record [k] times out, every other one goes through. *)
Definition api_fail_at (k : nat) : cdrAPI :=
  {| getAllCDRs := listing [rec1; rec2];
     verifyCDR := λ i _,
       if Nat.eqb i k then Throw (error_value "timeout") else verified_reply true |}.

(** A listing without a [cdrs] property. *)
Definition api_no_field : cdrAPI :=
  {| getAllCDRs := Normal (VObject ∅);
     verifyCDR := λ _ _, verified_reply true |}.


(** The backend cannot be reached. *)
Definition api_down : cdrAPI :=
  {| getAllCDRs := Throw (error_value "Network Error");
     verifyCDR := λ _ _, Throw (error_value "Network Error") |}.

(** The component as mounted at time 0, and as it is once it shows [l]. *)
Definition mounted : State := initial 0.
Definition showing (l : list (gmap string value)) : State :=
  mkState l l false None "" 0.

(** The time of a later refresh. *)
Definition later : Z := 1000.

(** The verification of record [k] is rejected with [null] as its reason,
    every other one goes through. *)
Definition api_null_at (k : nat) : cdrAPI :=
  {| getAllCDRs := listing [rec1; rec2];
     verifyCDR := λ i _,
       if Nat.eqb i k then Throw (Reason VNull) else verified_reply true |}.

(** For the worked examples, whose strings have all their code units below
    128: there the case conversion maps [A] to [Z] onto [a] to [z], unit by
    unit.  The theorems are about every case conversion and use this one
    nowhere. *)
Definition lower_7bit (c : N) : N :=
  if (65 <=? c)%N && (c <=? 90)%N then (c + 32)%N else c.

Definition case_7bit : CaseMapping :=
  {| toLowerCase := fmap (M := list) lower_7bit; toLowerCase_empty := eq_refl |}.

End Examples.


(** ** The effects around the handlers, and the life of the component *)

Module Lifecycle.
Import JS Dashboard Spec Examples.

Section events.
Context {casing : CaseMapping}.

(** The effect on [cdrs], [searchTerm] and [filterCDRs]: the filter is run
    again with the search term of the state. *)
Definition refilter (st : State) : action unit :=
  filterCDRs st (searchTerm st).

(** What happens to the component: a refresh (at mount, on an interval tick,
    or by the buttons) against what the backend then answers, a search typed
    in the search bar, the re-filter effect, and the callback of the timer
    that dismisses the error. *)
Inductive event : Type :=
  | Refresh (api : cdrAPI) (now : Z)
  | Search (searchValue : jsstring)
  | Refilter
  | Dismiss.

(** The state after an event; the setter calls made before a handler throws
    count. *)
Definition handle (st : State) (ev : event) : State :=
  match ev with
  | Refresh api now => run st (fetchCDRs api now)
  | Search searchValue => run st (handleSearch st searchValue)
  | Refilter => run st (refilter st)
  | Dismiss => apply_update st (setError None)
  end.

(** The component mounted at [t0], after the events [evs] one after another. *)
Definition after (t0 : Z) (evs : list event) : State :=
  foldl handle (initial t0) evs.

End events.

(** Refreshes one after another, each over before the next one starts: the
    call at mount and those of the interval, with the backend and the clock
    of each. *)
Definition refreshes (st : State) (ticks : list (cdrAPI * Z)) : State :=
  foldl (λ st tick, run st (fetchCDRs tick.1 tick.2)) st ticks.

(** The records and the time of the last of [ticks] whose refresh gets to
    [setCdrs], if there is one. *)
Fixpoint last_success (ticks : list (cdrAPI * Z))
  : option (list (gmap string value) * Z) :=
  match ticks with
  | [] => None
  | tick :: rest =>
      match last_success rest with
      | Some r => Some r
      | None =>
          match fetched tick.1 with
          | Normal results => Some (results, tick.2)
          | Throw _ => None
          end
      end
  end.

(** [m] runs the calls of [l1] and those of [l2], each in its own order. *)
Inductive interleaved {A} : list A → list A → list A → Prop :=
  | interleaved_nil : interleaved [] [] []
  | interleaved_l x l1 l2 m : interleaved l1 l2 m → interleaved (x :: l1) l2 (x :: m)
  | interleaved_r x l1 l2 m : interleaved l1 l2 m → interleaved l1 (x :: l2) (x :: m).

(** The record has a [verified] property of its own. *)
Definition has_verified (cdr : gmap string value) : Prop :=
  is_Some (cdr !! "verified").

(** A record as verification leaves an entry that was [null]. *)
Definition rec_bare : gmap string value := {[ "verified" := VBool false ]}.

(** A record with a storage reference, already flagged by the backend. *)
Definition rec3 : gmap string value :=
  {[ "caller" := VString "Eve"; "callee" := VString "Bob"; "hash" := VString "h3";
     "ipfs_cid" := VString "QmX"; "verified" := VBool true ]}.

(** A listing that is [null], and one whose [cdrs] is an object. *)
Definition api_null_listing : cdrAPI :=
  {| getAllCDRs := Normal VNull;
     verifyCDR := λ _ _, verified_reply true |}.

Definition api_object_cdrs : cdrAPI :=
  {| getAllCDRs := Normal (VObject {[ "cdrs" := VObject ∅ ]});
     verifyCDR := λ _ _, verified_reply true |}.

(** A refresh that succeeds and one that fails, started together: the calls
    before their first [await] alternate, then the first completes, then the
    second. *)
Definition overlap_run : list update :=
  [setLoading true; setLoading true; setError None; setError None;
   setCdrs [<["verified" := VBool true]> rec1; <["verified" := VBool true]> rec2];
   setLastRefresh later; setLoading false;
   setError (Some fetch_failed); setLoading false].

End Lifecycle.

Import JS Dashboard Spec Examples.
Import Lifecycle.

(** ** Strings: the built-ins meet their descriptions *)

Section strings.

Lemma startsWith_spec (s t : jsstring) :
  startsWith s t = true ↔ ∃ post, s = t ++ post.
Proof.
  revert s. induction t as [|b t IH]; intros s; simpl.
  - split; [intros _; by exists s | done].
  - destruct s as [|a s].
    + split; [done | intros [post H]; discriminate H].
    + rewrite andb_true_iff, N.eqb_eq, IH. split.
      * intros [-> [post ->]]. by exists post.
      * intros [post H]. injection H as -> ->. eauto.
Qed.

Lemma includes_spec (s t : jsstring) :
  includes s t = true ↔ substring t s.
Proof.
  unfold substring. induction s as [|a s IH].
  - simpl. rewrite orb_false_r, startsWith_spec. split.
    + intros [post H]. by exists [], post.
    + intros [[|c pre] [post H]]; [by exists post | discriminate H].
  - cbn [includes]. rewrite orb_true_iff, IH, startsWith_spec. split.
    + intros [[post H] | (pre & post & H)].
      * by exists [], post.
      * exists (a :: pre), post. by rewrite H.
    + intros [[|c pre] [post H]].
      * left. by exists post.
      * right. injection H as -> ->. eauto.
Qed.

Lemma trimStart_empty (s : jsstring) :
  trimStart s = [] ↔ whitespace_only s.
Proof.
  induction s as [|c s IH]; simpl; [done |].
  destruct (is_whitespace c).
  - rewrite IH. tauto.
  - split; [discriminate | intros [? _]; discriminate].
Qed.

Lemma trimEnd_empty (s : jsstring) :
  trimEnd s = [] ↔ whitespace_only s.
Proof.
  induction s as [|c s IH]; simpl; [done |].
  destruct (trimEnd s) as [|d r] eqn:E.
  - destruct (is_whitespace c).
    + tauto.
    + split; [discriminate | intros [? _]; discriminate].
  - split; [discriminate |]. intros [_ H]. apply IH in H. discriminate H.
Qed.

Lemma trimStart_suffix (s : jsstring) :
  ∃ pre, whitespace_only pre ∧ s = pre ++ trimStart s.
Proof.
  induction s as [|c s (pre & Hpre & IH)]; simpl.
  - by exists [].
  - destruct (is_whitespace c) eqn:E.
    + exists (c :: pre). split; [done |]. simpl. by f_equal.
    + by exists [].
Qed.

Lemma whitespace_only_app (s t : jsstring) :
  whitespace_only (s ++ t) ↔ whitespace_only s ∧ whitespace_only t.
Proof.
  induction s as [|c s IH]; simpl; [tauto |]. rewrite IH. tauto.
Qed.

(** [s.trim()] is the empty string exactly when [s] is empty or holds white
    space only. *)
Lemma trim_empty (s : jsstring) :
  trim s = [] ↔ whitespace_only s.
Proof.
  unfold trim. rewrite trimEnd_empty.
  destruct (trimStart_suffix s) as (pre & Hpre & Hs).
  rewrite Hs at 2. rewrite whitespace_only_app. tauto.
Qed.

(** [!s.trim()] *)
Lemma blank_test (s : jsstring) :
  negb (truthy (VString (trim s))) = true ↔ whitespace_only s.
Proof.
  rewrite <- trim_empty. simpl. destruct (trim s); [done |].
  split; discriminate.
Qed.

End strings.

(** ** Sequences: filters, counts and joined promises *)

Section sequences.
Context {A : Type}.

Lemma selects_filter (P : A → Prop) (f : A → bool) (l : list A) :
  Forall (λ x, f x = true ↔ P x) l → selects P l (List.filter f l).
Proof.
  induction 1 as [|x l Hx _ IH]; simpl; [constructor |].
  destruct (f x) eqn:E.
  - apply selects_keep; [by apply Hx | done].
  - apply selects_drop; [| done]. intros HP. apply Hx in HP. congruence.
Qed.

(** The subsequence is determined by the sequence and the predicate. *)
Lemma selects_unique (P : A → Prop) (l l1 l2 : list A) :
  selects P l l1 → selects P l l2 → l1 = l2.
Proof.
  intros H1. revert l2.
  induction H1 as [|x l l1 HP _ IH|x l l1 HP _ IH]; intros l2 H2;
    inversion H2; subst; try done.
  - f_equal. by apply IH.
  - by apply IH.
Qed.

Lemma counts_filter (P : A → Prop) (f : A → bool) (l : list A) :
  Forall (λ x, f x = true ↔ P x) l → counts P l (length (List.filter f l)).
Proof. intros H. exists (List.filter f l). split; [by apply selects_filter | done]. Qed.

(** [filter] with a callback that never throws on [l] and decides [P] there
    returns the subsequence of [l] that satisfies [P]. *)
Lemma array_filter_selects (f : A → completion bool) (P : A → Prop) (l : list A) :
  Forall (λ x, ∃ b, f x = Normal b ∧ (b = true ↔ P x)) l →
  ∃ l', array_filter f l = Normal l' ∧ selects P l l'.
Proof.
  induction 1 as [|x l (b & Hx & Hb) _ (l' & IH & Hsel)]; simpl.
  - exists []. split; [done | constructor].
  - rewrite Hx. simpl. rewrite IH. simpl. destruct b.
    + exists (x :: l'). split; [done |]. apply selects_keep; [by apply Hb | done].
    + exists l'. split; [done |]. apply selects_drop; [| done].
      intros HP. apply Hb in HP. discriminate HP.
Qed.

(** The joined promise resolves exactly when every promise does, and then
    with their results position by position. *)
Lemma promise_all_Normal (ps : list (completion A)) (l : list A) :
  promise_all ps = Normal l ↔ ps = Normal <$> l.
Proof.
  revert l. induction ps as [|p ps IH]; intros l; simpl.
  - split.
    + intros [= <-]. done.
    + destruct l; [done | discriminate].
  - destruct p as [a|e]; simpl.
    + destruct (promise_all ps) as [l'|e'] eqn:E; simpl.
      * split.
        -- intros [= <-]. simpl. f_equal. by apply IH.
        -- destruct l as [|b l]; [discriminate |]. intros [= -> Hps].
           apply IH in Hps. by injection Hps as ->.
      * split; [discriminate |].
        destruct l as [|b l]; [discriminate |]. intros [= -> Hps].
        apply IH in Hps. discriminate Hps.
    + split; [discriminate |]. destruct l; discriminate.
Qed.

End sequences.

(** ** The verification step *)

Section verification.
Context (api : cdrAPI).

Lemma is_error_message (e : thrown) :
  is_error e = true → read_message e = Normal tt.
Proof. by destruct e as [|[]]. Qed.

Lemma conforms_fails_with_error : conforms api → fails_with_error api.
Proof. intros H i cid e E. specialize (H i cid). by rewrite E in H. Qed.

(** The callback at index [i] asks the client about index [i] only. *)
Lemma verify_one_ext (api' : cdrAPI) (i : nat) (cdr : value) :
  (∀ cid, verifyCDR api' i cid = verifyCDR api i cid) →
  verify_one api' i cdr = verify_one api i cdr.
Proof.
  intros H. unfold verify_one.
  destruct (get cdr "ipfs_cid") as [cid|e]; simpl; [by rewrite H | done].
Qed.

Lemma conforms_verdict (i : nat) (cdr : value) :
  conforms api → ∃ b, verdict api i cdr = VBool b.
Proof.
  intros H. unfold verdict.
  destruct (get cdr "ipfs_cid") as [cid|e]; [| by exists false].
  specialize (H i cid). destruct (verifyCDR api i cid) as [res|e]; [| by exists false].
  destruct H as (o & b & -> & Hb). exists b. simpl. unfold prop. by rewrite Hb.
Qed.

Section failures_are_errors.
Hypothesis Herr : fails_with_error api.

(** The callback always resolves: whatever is thrown inside its [try] is
    caught, and the log line of the handler can be written. *)
Lemma verify_one_verdict (i : nat) (cdr : value) :
  verify_one api i cdr = Normal (<["verified" := verdict api i cdr]> (spread cdr)).
Proof.
  unfold verify_one, verdict.
  destruct (get cdr "ipfs_cid") as [cid|e] eqn:Ecid; simpl.
  - destruct (verifyCDR api i cid) as [res|e] eqn:Eres; simpl.
    + destruct (get res "verified") as [v|e] eqn:Ev; simpl; [done |].
      destruct res; simpl in Ev; try discriminate; by injection Ev as <-.
    + apply Herr in Eres. by rewrite (is_error_message e Eres).
  - destruct cdr; simpl in Ecid; try discriminate; by injection Ecid as <-.
Qed.

(** So does the joined promise, with the callback's result at every index. *)
Lemma verifiedResults_verdict (records : list value) :
  verifiedResults api records
  = Normal (imap (λ i cdr, <["verified" := verdict api i cdr]> (spread cdr)) records).
Proof.
  unfold verifiedResults. apply promise_all_Normal.
  rewrite fmap_imap. apply imap_ext. intros i cdr _. simpl.
  by apply verify_one_verdict.
Qed.

End failures_are_errors.

End verification.

Section verification_claims.



(** Failures that carry an error are isolated.  When the verification call
    for index [k] fails, with a client whose rejections have a reason other
    than [undefined] and [null], the step still resolves, the record at [k]
    comes out with [verified = false], and every other index holds what it
    holds in a run whose client differs at index [k] only, for one where that
    call goes through. *)
Theorem verification_failure_is_isolated
    (api api' : cdrAPI) (records : list value) (k : nat) (cdr cid : value) (e : thrown) :
  fails_with_error api →
  fails_with_error api' →
  records !! k = Some cdr →
  get cdr "ipfs_cid" = Normal cid →
  verifyCDR api k cid = Throw e →
  (∀ i c, i ≠ k → verifyCDR api' i c = verifyCDR api i c) →
  ∃ out out',
    verifiedResults api records = Normal out
    ∧ verifiedResults api' records = Normal out'
    ∧ length out = length records
    ∧ out !! k = Some (<["verified" := VBool false]> (spread cdr))
    ∧ ∀ j, j ≠ k → out !! j = out' !! j.
Proof.
  intros Herr Herr' Hk Hcid Hfail Hsame.
  eexists _, _. split; [by apply verifiedResults_verdict |].
  split; [by apply verifiedResults_verdict |].
  split; [by rewrite length_imap |]. split.
  - rewrite list_lookup_imap, Hk. simpl. unfold verdict. by rewrite Hcid, Hfail.
  - intros j Hj. rewrite !list_lookup_imap.
    destruct (records !! j) as [c|]; simpl; [| done].
    do 2 f_equal.
    assert (verify_one api' j c = verify_one api j c) as Heq.
    { apply verify_one_ext. intros c'. by apply Hsame. }
    rewrite !verify_one_verdict in Heq by done.
    injection Heq as Heq.
    apply (f_equal (λ m : gmap string value, m !! "verified")) in Heq.
    rewrite !lookup_insert_eq in Heq. congruence.
Qed.

Lemma verification_failure_is_isolated_witness :
  verifyCDR (api_fail_at 1) 1 VUndefined = Throw (error_value "timeout")
  ∧ ∃ out out',
      verifiedResults (api_fail_at 1) [VObject rec1; VObject rec2] = Normal out
      ∧ verifiedResults api_ok [VObject rec1; VObject rec2] = Normal out'
      ∧ length out = 2
      ∧ out !! 1 = Some (<["verified" := VBool false]> rec2)
      ∧ ∀ j, j ≠ 1 → out !! j = out' !! j.
Proof.
  split; [reflexivity |].
  apply (verification_failure_is_isolated (api_fail_at 1) api_ok
           [VObject rec1; VObject rec2] 1 (VObject rec2) VUndefined
           (error_value "timeout")).
  - intros i c e. simpl. destruct (Nat.eqb i 1); intros [= <-]. reflexivity.
  - intros i c e. simpl. discriminate.
  - reflexivity.
  - reflexivity.
  - reflexivity.
  - intros i c Hi. simpl. apply Nat.eqb_neq in Hi. rewrite Hi. reflexivity.
Defined.

(** C7. When the verification call for the record at index [i] goes through
    with the boolean [b], the record comes out as the input record with
    [verified] set to [b]: no other property is added, dropped or changed. *)
Theorem verification_success_sets_verified_only
    (api : cdrAPI) (records : list value) (i : nat)
    (o : gmap string value) (res : value) (b : bool) :
  records !! i = Some (VObject o) →
  verifyCDR api i (prop o "ipfs_cid") = Normal res →
  get res "verified" = Normal (VBool b) →
  verify_one api i (VObject o) = Normal (<["verified" := VBool b]> o)
  ∧ (<["verified" := VBool b]> o) !! "verified" = Some (VBool b)
  ∧ (∀ k, k ≠ "verified" → (<["verified" := VBool b]> o) !! k = o !! k)
  ∧ (∀ out, verifiedResults api records = Normal out →
            out !! i = Some (<["verified" := VBool b]> o))
  ∧ (fails_with_error api → ∃ out, verifiedResults api records = Normal out).
Proof.
  intros Hi Hres Hb.
  assert (verify_one api i (VObject o) = Normal (<["verified" := VBool b]> o)) as Hone.
  { unfold verify_one. simpl. rewrite Hres. simpl. by rewrite Hb. }
  split; [done |]. split; [by rewrite lookup_insert_eq |].
  split; [intros k Hk; by rewrite lookup_insert_ne |]. split.
  - intros out Hout. apply promise_all_Normal in Hout.
    apply (f_equal (λ l, l !! i)) in Hout.
    rewrite list_lookup_imap, list_lookup_fmap, Hi in Hout. simpl in Hout.
    rewrite Hone in Hout. destruct (out !! i); simpl in Hout; congruence.
  - intros Herr. eexists. by apply verifiedResults_verdict.
Qed.

Lemma verification_success_sets_verified_only_witness :
  verifyCDR (api_fail_at 1) 0 (prop rec1 "ipfs_cid") = verified_reply true
  ∧ verify_one (api_fail_at 1) 0 (VObject rec1) = Normal (<["verified" := VBool true]> rec1)
  ∧ (<["verified" := VBool true]> rec1) !! "verified" = Some (VBool true)
  ∧ (∀ k, k ≠ "verified" → (<["verified" := VBool true]> rec1) !! k = rec1 !! k)
  ∧ (∀ out, verifiedResults (api_fail_at 1) [VObject rec1; VObject rec2] = Normal out →
            out !! 0 = Some (<["verified" := VBool true]> rec1))
  ∧ (fails_with_error (api_fail_at 1) →
     ∃ out, verifiedResults (api_fail_at 1) [VObject rec1; VObject rec2] = Normal out).
Proof.
  split; [reflexivity |].
  apply (verification_success_sets_verified_only (api_fail_at 1)
           [VObject rec1; VObject rec2] 0 rec1
           (VObject {[ "verified" := VBool true ]}) true); reflexivity.
Defined.


(** C2, where the code departs from it.  Of two records the verification of
    the second is rejected with [null] as its reason: the handler of the
    callback throws on reading [err.message], so the callback rejects, the
    step rejects with it, and the refresh ends on its failure branch; the
    first record, whose verification went through, is not shown either. *)
Theorem null_reason_is_not_isolated :
  verifyCDR (api_null_at 1) 1 (prop rec2 "ipfs_cid") = Throw (Reason VNull)
  ∧ verify_one (api_null_at 1) 0 (VObject rec1) = Normal (<["verified" := VBool true]> rec1)
  ∧ verify_one (api_null_at 1) 1 (VObject rec2) = Throw TypeError
  ∧ verifiedResults (api_null_at 1) [VObject rec1; VObject rec2] = Throw TypeError
  ∧ calls (fetchCDRs (api_null_at 1) later)
    = [setLoading true; setError None; setError (Some fetch_failed); setLoading false]
  ∧ cdrs (run mounted (fetchCDRs (api_null_at 1) later)) = [].
Proof. repeat split; reflexivity. Qed.

End verification_claims.

(** ** The refresh cycle *)

Section refresh.

(** A refresh makes one of two runs of setter calls, and never throws. *)
Lemma fetchCDRs_calls (api : cdrAPI) (now : Z) :
  calls (fetchCDRs api now) =
    match fetched api with
    | Normal results =>
        [setLoading true; setError None; setCdrs results; setLastRefresh now;
         setLoading false]
    | Throw _ =>
        [setLoading true; setError None; setError (Some fetch_failed); setLoading false]
    end
  ∧ outcome (fetchCDRs api now) = Normal tt.
Proof.
  unfold fetched, fetchCDRs, calls, outcome, try_catch_finally.
  destruct (getAllCDRs api) as [response|e]; [| done].
  cbn. destruct (get response "cdrs") as [c|e]; [| done].
  cbn. destruct (elements_for_map (if truthy c then c else VArray [])) as [elems|e]; [| done].
  cbn. destruct (verifiedResults api elems) as [results|e]; done.
Qed.

Lemma fetchCDRs_failed (api : cdrAPI) (now : Z) (e : thrown) :
  fetched api = Throw e →
  calls (fetchCDRs api now)
  = [setLoading true; setError None; setError (Some fetch_failed); setLoading false].
Proof. intros H. destruct (fetchCDRs_calls api now) as [-> _]. by rewrite H. Qed.

Lemma fetchCDRs_succeeded (api : cdrAPI) (now : Z) (results : list (gmap string value)) :
  fetched api = Normal results →
  calls (fetchCDRs api now)
  = [setLoading true; setError None; setCdrs results; setLastRefresh now; setLoading false].
Proof. intros H. destruct (fetchCDRs_calls api now) as [-> _]. by rewrite H. Qed.

(** C5. When the list operation fails, the refresh sets the fixed message and
    calls no other setter than those of the loading flag and of the error:
    the records it held stay as they were. *)
Theorem fetch_failure_keeps_records (api : cdrAPI) (now : Z) (st : State) (e : thrown) :
  getAllCDRs api = Throw e →
  calls (fetchCDRs api now)
  = [setLoading true; setError None; setError (Some fetch_failed); setLoading false]
  ∧ cdrs (run st (fetchCDRs api now)) = cdrs st
  ∧ error (run st (fetchCDRs api now)) = Some fetch_failed
  ∧ fetch_failed ≠ "".
Proof.
  intros H. unfold run. rewrite (fetchCDRs_failed api now e).
  - done.
  - unfold fetched. by rewrite H.
Qed.

Lemma fetch_failure_keeps_records_witness :
  getAllCDRs api_down = Throw (error_value "Network Error")
  ∧ calls (fetchCDRs api_down later)
    = [setLoading true; setError None; setError (Some fetch_failed); setLoading false]
  ∧ cdrs (run (showing [rec1]) (fetchCDRs api_down later)) = [rec1]
  ∧ error (run (showing [rec1]) (fetchCDRs api_down later)) = Some fetch_failed
  ∧ fetch_failed ≠ "".
Proof.
  split; [reflexivity |].
  apply (fetch_failure_keeps_records api_down later (showing [rec1])
           (error_value "Network Error")).
  reflexivity.
Defined.

(** C6, as the code has it.  A refresh that ends without an error message has
    set the timestamp to its [now]; one that ends with the message has left
    the timestamp alone, and a failed list operation ends that way. *)
Theorem timestamp_updated_on_success_only (api : cdrAPI) (now : Z) (st : State) :
  (error (run st (fetchCDRs api now)) = None →
   lastRefresh (run st (fetchCDRs api now)) = now)
  ∧ (error (run st (fetchCDRs api now)) ≠ None →
     lastRefresh (run st (fetchCDRs api now)) = lastRefresh st)
  ∧ (∀ e, getAllCDRs api = Throw e → error (run st (fetchCDRs api now)) ≠ None).
Proof.
  unfold run. destruct (fetchCDRs_calls api now) as [Hcalls _]. rewrite Hcalls.
  split; [| split].
  - destruct (fetched api); simpl; [done | discriminate].
  - destruct (fetched api); simpl; [intros H; by destruct H | done].
  - intros e H. unfold fetched. rewrite H. simpl. discriminate.
Qed.

Lemma timestamp_updated_on_success_only_witness :
  (error (run mounted (fetchCDRs api_ok later)) = None
   ∧ lastRefresh (run mounted (fetchCDRs api_ok later)) = later)
  ∧ (error (run mounted (fetchCDRs api_down later)) ≠ None
     ∧ lastRefresh (run mounted (fetchCDRs api_down later)) = lastRefresh mounted).
Proof.
  split.
  - split; [reflexivity |].
    apply (timestamp_updated_on_success_only api_ok later mounted). reflexivity.
  - split; [discriminate |].
    apply (timestamp_updated_on_success_only api_down later mounted). discriminate.
Defined.

(** C6 as written fails: with the backend down, a refresh at time 1000 of a
    component mounted at time 0 leaves the timestamp at 0. *)
Lemma timestamp_kept_on_failure :
  lastRefresh (run mounted (fetchCDRs api_down later)) = lastRefresh mounted
  ∧ lastRefresh (run mounted (fetchCDRs api_down later)) ≠ later.
Proof. split; [reflexivity | discriminate]. Qed.

(** C8. Every refresh first sets the loading flag and clears the error, last
    resets the loading flag, and touches the flag nowhere in between; this on
    the success branch and on the failure branch alike, and the handler
    itself never throws. *)
Theorem refresh_brackets_loading (api : cdrAPI) (now : Z) (st : State) :
  ∃ middle,
    calls (fetchCDRs api now) = [setLoading true; setError None] ++ middle ++ [setLoading false]
    ∧ ((∃ results, middle = [setCdrs results; setLastRefresh now])
       ∨ middle = [setError (Some fetch_failed)])
    ∧ loading (apply_updates st [setLoading true; setError None]) = true
    ∧ error (apply_updates st [setLoading true; setError None]) = None
    ∧ loading (run st (fetchCDRs api now)) = false
    ∧ outcome (fetchCDRs api now) = Normal tt.
Proof.
  unfold run. destruct (fetchCDRs_calls api now) as [-> ->].
  destruct (fetched api) as [results|e].
  - exists [setCdrs results; setLastRefresh now]. repeat split; eauto.
  - exists [setError (Some fetch_failed)]. repeat split; eauto.
Qed.

(** C10. A listing whose [cdrs] is absent, [null] or otherwise falsy counts
    as an empty one: the records are replaced by the empty sequence, the
    timestamp is set and no error is raised. *)
Theorem falsy_cdrs_gives_empty_set
    (api : cdrAPI) (now : Z) (st : State) (response c : value) :
  getAllCDRs api = Normal response →
  get response "cdrs" = Normal c →
  truthy c = false →
  calls (fetchCDRs api now)
  = [setLoading true; setError None; setCdrs []; setLastRefresh now; setLoading false]
  ∧ cdrs (run st (fetchCDRs api now)) = []
  ∧ error (run st (fetchCDRs api now)) = None
  ∧ outcome (fetchCDRs api now) = Normal tt.
Proof.
  intros Hres Hc Hfalsy. unfold run.
  destruct (fetchCDRs_calls api now) as [_ Hout].
  rewrite (fetchCDRs_succeeded api now []).
  - done.
  - unfold fetched. rewrite Hres. simpl. rewrite Hc. simpl. by rewrite Hfalsy.
Qed.

Lemma falsy_cdrs_gives_empty_set_witness :
  getAllCDRs api_no_field = Normal (VObject ∅)
  ∧ truthy VUndefined = false
  ∧ calls (fetchCDRs api_no_field later)
    = [setLoading true; setError None; setCdrs []; setLastRefresh later; setLoading false]
  ∧ cdrs (run (showing [rec1]) (fetchCDRs api_no_field later)) = []
  ∧ error (run (showing [rec1]) (fetchCDRs api_no_field later)) = None
  ∧ outcome (fetchCDRs api_no_field later) = Normal tt.
Proof.
  split; [reflexivity |]. split; [reflexivity |].
  apply (falsy_cdrs_gives_empty_set api_no_field later (showing [rec1])
           (VObject ∅) VUndefined); reflexivity.
Defined.

End refresh.

(** ** The derived views *)

Section derived_views.
Context {casing : CaseMapping}.

Lemma strict_eq_string_spec (v : value) (lit : jsstring) :
  strict_eq_string v lit = true ↔ v = VString lit.
Proof.
  destruct v; simpl; try (split; [discriminate | discriminate]).
  rewrite bool_decide_eq_true. split; [by intros -> | by intros [= ->]].
Qed.

Lemma truthy_optional_boolean (v : value) :
  optional_boolean v = true → truthy v = true ↔ v = VBool true.
Proof.
  destruct v as [| |b| | | |]; simpl; try discriminate; intros _.
  - split; discriminate.
  - split; discriminate.
  - split; [by intros -> | by intros [= ->]].
Qed.

Lemma truthy_optional_string (v : value) :
  optional_string v = true → truthy v = true ↔ ∃ s, v = VString s ∧ s ≠ [].
Proof.
  destruct v as [| | | |s| |]; simpl; try discriminate; intros _.
  - split; [discriminate | by intros (s & ? & _)].
  - split; [discriminate | by intros (s & ? & _)].
  - split.
    + intros H. exists s. split; [done |]. by destruct s.
    + intros (s' & [= <-] & H). by destruct s.
Qed.

Lemma is_record_fields (cdr : gmap string value) :
  is_record cdr = true →
  (∃ s, prop cdr "caller" = VString s) ∧ (∃ s, prop cdr "callee" = VString s)
  ∧ (∃ s, prop cdr "hash" = VString s)
  ∧ optional_string (prop cdr "ipfs_cid") = true
  ∧ optional_boolean (prop cdr "verified") = true.
Proof.
  unfold is_record. rewrite !andb_true_iff. intros [[[[H1 H2] H3] H4] H5].
  repeat split; try done.
  - destruct (prop cdr "caller"); try discriminate; eauto.
  - destruct (prop cdr "callee"); try discriminate; eauto.
  - destruct (prop cdr "hash"); try discriminate; eauto.
Qed.

Lemma substring_of_empty (t : jsstring) : substring t [] → t = [].
Proof.
  intros ([|c pre] & post & H); [| discriminate H].
  destruct t; [done | discriminate H].
Qed.

Lemma field_contains_string (term : jsstring) (cdr : gmap string value)
    (k : string) (s : jsstring) :
  prop cdr k = VString s →
  field_contains term cdr k ↔ includes (toLowerCase s) (toLowerCase term) = true.
Proof.
  intros Hk. unfold field_contains. rewrite includes_spec, Hk. split.
  - by intros (s' & [= <-] & H).
  - intros H. by exists s.
Qed.

(** On a record the filter callback does not throw, and answers whether the
    record matches. *)
Lemma matches_spec (term : jsstring) (cdr : gmap string value) :
  is_record cdr = true →
  ∃ b, matches term cdr = Normal b ∧ (b = true ↔ term_matches term cdr).
Proof.
  intros (( s1 & H1) & (s2 & H2) & (s3 & H3) & H4 & _)%is_record_fields.
  assert (term_matches term cdr ↔
          includes (toLowerCase s1) (toLowerCase term) = true
          ∨ includes (toLowerCase s2) (toLowerCase term) = true
          ∨ includes (toLowerCase s3) (toLowerCase term) = true
          ∨ field_contains term cdr "ipfs_cid") as Hiff.
  { unfold term_matches.
    by rewrite (field_contains_string term cdr "caller" s1 H1),
      (field_contains_string term cdr "callee" s2 H2),
      (field_contains_string term cdr "hash" s3 H3). }
  unfold matches. rewrite H1, H2, H3. simpl.
  destruct (includes (toLowerCase s1) (toLowerCase term)) eqn:E1; simpl;
    [exists true; split; [done | rewrite Hiff; tauto] |].
  destruct (includes (toLowerCase s2) (toLowerCase term)); simpl;
    [exists true; split; [done | rewrite Hiff; tauto] |].
  destruct (includes (toLowerCase s3) (toLowerCase term)); simpl;
    [exists true; split; [done | rewrite Hiff; tauto] |].
  destruct (truthy (prop cdr "ipfs_cid")) eqn:Ht.
  - apply truthy_optional_string in Ht as (s4 & H4' & _); [| done].
    rewrite (field_contains_string term cdr "ipfs_cid" s4 H4') in Hiff.
    rewrite H4'. simpl. eexists. split; [done |].
    rewrite Hiff. intuition discriminate.
  - exists false. split; [done |]. rewrite Hiff.
    split; [discriminate |]. intros [H|[H|[H|(s4 & H4' & Hsub)]]]; try discriminate H.
    exfalso. rewrite H4' in Ht. simpl in Ht. destruct s4; [| discriminate Ht].
    rewrite toLowerCase_empty in Hsub. apply substring_of_empty in Hsub.
    assert (includes (toLowerCase s1) (toLowerCase term) = true) as E; [| congruence].
    apply includes_spec. rewrite Hsub. by exists [], (toLowerCase s1).
Qed.

(** C3. Over records, [getStats] gives the four counts of the data model:
    all records; those with [status == "verified"] or [verified == true];
    those with a storage reference that is present and not empty; those with
    [status] "error" or "mismatch".  On any state: no record gives zeroes; a
    record with the verified status and one with the verified flag count as
    two; and the two-record scenario gives 2, 1, 0, 1. *)
Theorem getStats_counts :
  (∀ st : State,
     Forall (λ cdr, is_record cdr = true) (cdrs st) →
     total (getStats st) = length (cdrs st)
     ∧ counts counted_verified (cdrs st) (verified (getStats st))
     ∧ counts counted_with_storage (cdrs st) (withIPFS (getStats st))
     ∧ counts counted_error (cdrs st) (errors (getStats st)))
  ∧ (∀ st : State, cdrs st = [] → getStats st = mkStats 0 0 0 0)
  ∧ (∀ (st : State) (o1 o2 : gmap string value),
       cdrs st = [o1; o2] →
       prop o1 "status" = VString "verified" →
       prop o2 "status" = VUndefined → prop o2 "verified" = VBool true →
       verified (getStats st) = 2)
  ∧ (∀ st : State, cdrs st = [rec1; rec2] → getStats st = mkStats 2 1 0 1).
Proof.
  split; [| split; [| split]].
  - intros st Hrec. unfold getStats. simpl. split; [done |].
    split; [| split]; apply counts_filter; eapply Forall_impl; try exact Hrec;
      intros cdr (_ & _ & _ & Hcid & Hver)%is_record_fields; simpl.
    + unfold counted_verified, status_is.
      rewrite orb_true_iff, strict_eq_string_spec, truthy_optional_boolean; done.
    + unfold counted_with_storage. by apply truthy_optional_string.
    + unfold counted_error, status_is.
      by rewrite orb_true_iff, !strict_eq_string_spec.
  - intros st H. unfold getStats. by rewrite H.
  - intros st o1 o2 H H1 H2 H3. unfold getStats. rewrite H.
    cbn [List.filter verified]. by rewrite H1, H2, H3.
  - intros st H. unfold getStats. by rewrite H.
Qed.

Lemma getStats_counts_witness :
  Forall (λ cdr, is_record cdr = true) (cdrs (showing [rec1; rec2]))
  ∧ total (getStats (showing [rec1; rec2])) = 2
  ∧ counts counted_verified [rec1; rec2] 1
  ∧ counts counted_with_storage [rec1; rec2] 0
  ∧ counts counted_error [rec1; rec2] 1.
Proof.
  assert (Forall (λ cdr, is_record cdr = true) (cdrs (showing [rec1; rec2]))) as Hrec.
  { repeat constructor. }
  split; [exact Hrec |].
  exact (proj1 getStats_counts (showing [rec1; rec2]) Hrec).
Defined.

(** C4. A blank search term (empty, or white space only) shows the records
    unchanged.  Any other term shows, in the order of the records, exactly
    those of which one of [caller], [callee], [hash] or a present [ipfs_cid]
    contains the term, both in lower case. *)
Theorem filterCDRs_shows_matches (st : State) (term : jsstring) :
  (whitespace_only term →
   calls (filterCDRs st term) = [setFilteredCdrs (cdrs st)]
   ∧ outcome (filterCDRs st term) = Normal tt
   ∧ filteredCdrs (run st (filterCDRs st term)) = cdrs st)
  ∧ (¬ whitespace_only term →
     Forall (λ cdr, is_record cdr = true) (cdrs st) →
     ∃ shown,
       calls (filterCDRs st term) = [setFilteredCdrs shown]
       ∧ outcome (filterCDRs st term) = Normal tt
       ∧ filteredCdrs (run st (filterCDRs st term)) = shown
       ∧ selects (term_matches term) (cdrs st) shown).
Proof.
  unfold filterCDRs. split.
  - intros Hblank%blank_test. by rewrite Hblank.
  - intros Hterm Hrec.
    destruct (negb (truthy (VString (trim term)))) eqn:E.
    { by apply blank_test in E. }
    destruct (array_filter_selects (matches term) (term_matches term) (cdrs st))
      as (shown & Hshown & Hsel).
    { eapply Forall_impl; [exact Hrec |]. intros cdr Hcdr. by apply matches_spec. }
    exists shown. unfold run, calls, outcome. cbn. rewrite Hshown. done.
Qed.

(** C9. The counters read the records and nothing else of the state: two
    states with the same records have the same counters, and so do the states
    that searching for two different terms leads to. *)
Theorem getStats_ignores_search_term :
  (∀ st1 st2 : State, cdrs st1 = cdrs st2 → getStats st1 = getStats st2)
  ∧ (∀ (st : State) (t1 t2 : jsstring),
       getStats (run st (handleSearch st t1)) = getStats (run st (handleSearch st t2))
       ∧ getStats (run st (handleSearch st t1)) = getStats st).
Proof.
  assert (∀ st1 st2 : State, cdrs st1 = cdrs st2 → getStats st1 = getStats st2) as Hsame.
  { intros st1 st2 H. unfold getStats. by rewrite H. }
  assert (∀ st t, cdrs (run st (handleSearch st t)) = cdrs st) as Hsearch.
  { intros st t. unfold run, handleSearch, filterCDRs, calls.
    destruct (negb (truthy (VString (trim t)))); [done |].
    cbn. by destruct (array_filter (matches t) (cdrs st)). }
  split; [done |]. intros st t1 t2. split; apply Hsame; by rewrite !Hsearch.
Qed.

End derived_views.

(** The search and the counters at work on the two records of the scenario. *)

Section derived_views_at_work.
Local Existing Instance case_7bit.

Lemma filterCDRs_shows_matches_witness :
  (whitespace_only "   "
   ∧ filteredCdrs (run (showing [rec1; rec2]) (filterCDRs (showing [rec1; rec2]) "   "))
     = [rec1; rec2])
  ∧ (¬ whitespace_only "a"
     ∧ Forall (λ cdr, is_record cdr = true) (cdrs (showing [rec1; rec2]))
     ∧ selects (term_matches "a") [rec1; rec2] [rec1]).
Proof.
  split.
  - assert (whitespace_only "   ") as Hblank by (simpl; tauto).
    split; [exact Hblank |].
    apply (proj1 (filterCDRs_shows_matches (showing [rec1; rec2]) "   ") Hblank).
  - assert (¬ whitespace_only "a") as Hterm by (simpl; intros [H _]; discriminate H).
    assert (Forall (λ cdr, is_record cdr = true) (cdrs (showing [rec1; rec2]))) as Hrec.
    { repeat constructor. }
    split; [exact Hterm |]. split; [exact Hrec |].
    destruct (proj2 (filterCDRs_shows_matches (showing [rec1; rec2]) "a") Hterm Hrec)
      as (shown & Hcalls & _ & _ & Hsel).
    injection Hcalls as <-. exact Hsel.
Defined.

Lemma getStats_ignores_search_term_witness :
  cdrs (showing [rec1; rec2]) = cdrs (mkState [rec1; rec2] [rec1] false None "a" 0)
  ∧ getStats (showing [rec1; rec2]) = getStats (mkState [rec1; rec2] [rec1] false None "a" 0).
Proof.
  split; [reflexivity |].
  apply (proj1 getStats_ignores_search_term). reflexivity.
Defined.

End derived_views_at_work.

(** ** More on the search *)

Section search.
Context {casing : CaseMapping}.

Lemma matches_throws_TypeError (term : jsstring) (cdr : gmap string value) (e : thrown) :
  matches term cdr = Throw e → e = TypeError.
Proof.
  unfold matches, lower_includes.
  destruct (prop cdr "caller"); simpl; try (by intros [= <-]).
  destruct (includes _ _); simpl; [discriminate |].
  destruct (prop cdr "callee"); simpl; try (by intros [= <-]).
  destruct (includes _ _); simpl; [discriminate |].
  destruct (prop cdr "hash"); simpl; try (by intros [= <-]).
  destruct (includes _ _); simpl; [discriminate |].
  destruct (truthy (prop cdr "ipfs_cid")); [| discriminate].
  destruct (prop cdr "ipfs_cid"); simpl; by intros [= <-].
Qed.

Lemma array_filter_sublist {A} (f : A → completion bool) (l l' : list A) :
  array_filter f l = Normal l' → l' `sublist_of` l.
Proof.
  revert l'. induction l as [|x l IH]; intros l'; simpl.
  - intros [= <-]. constructor.
  - destruct (f x) as [b|e]; simpl; [| discriminate].
    destruct (array_filter f l) as [r|e]; simpl; [| discriminate].
    intros [= <-]. destruct b; [apply sublist_skip | apply sublist_cons]; by apply IH.
Qed.

Lemma array_filter_throws {A} (f : A → completion bool) (l : list A) (e : thrown) :
  array_filter f l = Throw e → ∃ x e', x ∈ l ∧ f x = Throw e' ∧ e = e'.
Proof.
  induction l as [|x l IH]; simpl; [discriminate |].
  destruct (f x) as [b|e'] eqn:E; simpl.
  - destruct (array_filter f l) as [r|e'']; simpl; [discriminate |].
    intros [= <-]. destruct IH as (y & e' & Hy & Hf & He); [done |].
    exists y, e'. split; [by apply list_elem_of_further | done].
  - intros [= <-]. exists x, e'. split; [apply list_elem_of_here | done].
Qed.

Lemma array_filter_hits {A} (f : A → completion bool) (l : list A) (x : A) (e : thrown) :
  x ∈ l → f x = Throw e → ∃ e', array_filter f l = Throw e'.
Proof.
  induction 1 as [x l|x y l _ IH]; intros Hx; simpl.
  - rewrite Hx. simpl. eauto.
  - destruct (f y) as [b|e']; simpl; [| eauto].
    destruct (IH Hx) as [e' ->]. simpl. eauto.
Qed.

(** X1. A search either shows a subsequence of the records and completes, or
    throws a [TypeError] before it has called any setter. *)
Theorem filterCDRs_shows_sublist_or_throws (st : State) (term : jsstring) :
  (∃ shown,
     calls (filterCDRs st term) = [setFilteredCdrs shown]
     ∧ outcome (filterCDRs st term) = Normal tt
     ∧ shown `sublist_of` cdrs st)
  ∨ (calls (filterCDRs st term) = []
     ∧ outcome (filterCDRs st term) = Throw TypeError).
Proof.
  unfold filterCDRs.
  destruct (negb (truthy (VString (trim term)))).
  - left. exists (cdrs st). by repeat split.
  - unfold calls, outcome.
    destruct (array_filter (matches term) (cdrs st)) as [shown|e] eqn:E; cbn.
    + left. exists shown. repeat split. by eapply array_filter_sublist.
    + right. apply array_filter_throws in E as (x & e' & _ & Hx & ->).
      by rewrite (matches_throws_TypeError term x e' Hx).
Qed.

(** X2. With a record whose [caller] is not a string among the records, every
    search for a term that is not blank throws a [TypeError]: the search term
    is set, the filtered view is not. *)
Theorem search_throws_without_caller (st : State) (term : jsstring)
    (cdr : gmap string value) :
  cdr ∈ cdrs st →
  is_string (prop cdr "caller") = false →
  ¬ whitespace_only term →
  calls (handleSearch st term) = [setSearchTerm term]
  ∧ outcome (handleSearch st term) = Throw TypeError
  ∧ filteredCdrs (run st (handleSearch st term)) = filteredCdrs st
  ∧ searchTerm (run st (handleSearch st term)) = term.
Proof.
  intros Hin Hcaller Hterm.
  assert (matches term cdr = Throw TypeError) as Hcdr.
  { unfold matches. by destruct (prop cdr "caller"). }
  destruct (array_filter_hits _ _ _ _ Hin Hcdr) as [e He].
  assert (e = TypeError) as ->.
  { apply array_filter_throws in He as (x & e' & _ & Hx & ->).
    by apply (matches_throws_TypeError term x). }
  assert (negb (truthy (VString (trim term))) = false) as Htrim.
  { apply not_true_is_false. by rewrite blank_test. }
  unfold run, handleSearch, filterCDRs, calls, outcome.
  rewrite Htrim. cbn. rewrite He. by cbn.
Qed.

Lemma array_filter_ext {A} (f g : A → completion bool) (l : list A) :
  (∀ x, f x = g x) → array_filter f l = array_filter g l.
Proof. intros H. induction l as [|x l IH]; simpl; [done |]. by rewrite H, IH. Qed.

(** X3. The search does not tell the case of the term: two terms with the
    same lower case, both blank or both not, make the same calls and
    complete the same way. *)
Theorem filterCDRs_ignores_case (st : State) (t1 t2 : jsstring) :
  (whitespace_only t1 ↔ whitespace_only t2) →
  toLowerCase t1 = toLowerCase t2 →
  filterCDRs st t1 = filterCDRs st t2.
Proof.
  intros Hblank Hlow.
  assert (negb (truthy (VString (trim t1))) = negb (truthy (VString (trim t2)))) as Htest.
  { apply eq_true_iff_eq. by rewrite !blank_test. }
  unfold filterCDRs. rewrite Htest.
  destruct (negb (truthy (VString (trim t2)))); [done |].
  rewrite (array_filter_ext (matches t1) (matches t2)); [done |].
  intros cdr. unfold matches, lower_includes. by rewrite Hlow.
Qed.

Lemma substring_trans (t u s : jsstring) :
  substring t u → substring u s → substring t s.
Proof.
  intros (p1 & q1 & ->) (p2 & q2 & ->).
  exists (p2 ++ p1), (q1 ++ q2). by rewrite <- !(assoc_L (++)).
Qed.

(** Where the callback answers for a term whose lower case holds that of
    another term, it answers for that other term, and with yes where it
    answered yes. *)
Lemma matches_of_contained_term (term long : jsstring) (cdr : gmap string value)
    (b' : bool) :
  substring (toLowerCase term) (toLowerCase long) →
  matches long cdr = Normal b' →
  ∃ b, matches term cdr = Normal b ∧ (b' = true → b = true).
Proof.
  intros Hsub. unfold matches, lower_includes.
  set (t := toLowerCase term) in *. set (u := toLowerCase long) in *.
  assert (∀ s, includes s t = false → includes s u = false) as Hno.
  { intros s H. destruct (includes s u) eqn:E; [| done].
    apply includes_spec in E. pose proof (substring_trans _ _ _ Hsub E) as E'.
    apply includes_spec in E'. congruence. }
  destruct (prop cdr "caller") as [| | | |s1| |]; simpl; try discriminate.
  destruct (includes (toLowerCase s1) t) eqn:E1; simpl; [eauto |].
  rewrite (Hno _ E1). simpl.
  destruct (prop cdr "callee") as [| | | |s2| |]; simpl; try discriminate.
  destruct (includes (toLowerCase s2) t) eqn:E2; simpl; [eauto |].
  rewrite (Hno _ E2). simpl.
  destruct (prop cdr "hash") as [| | | |s3| |]; simpl; try discriminate.
  destruct (includes (toLowerCase s3) t) eqn:E3; simpl; [eauto |].
  rewrite (Hno _ E3). simpl.
  destruct (truthy (prop cdr "ipfs_cid")); [| eauto].
  destruct (prop cdr "ipfs_cid") as [| | | |s4| |]; simpl; try discriminate.
  destruct (includes (toLowerCase s4) t) eqn:E4; simpl; [eauto |].
  rewrite (Hno _ E4). eauto.
Qed.

Lemma array_filter_narrows {A} (f g : A → completion bool) (l l' : list A) :
  (∀ x b', f x = Normal b' → ∃ b, g x = Normal b ∧ (b' = true → b = true)) →
  array_filter f l = Normal l' →
  ∃ k, array_filter g l = Normal k ∧ l' `sublist_of` k.
Proof.
  intros Hfg. revert l'. induction l as [|x l IH]; intros l'; simpl.
  - intros [= <-]. exists []. split; [done | constructor].
  - destruct (f x) as [b'|e] eqn:Ef; simpl; [| discriminate].
    destruct (array_filter f l) as [r|e]; simpl; [| discriminate].
    intros [= <-]. destruct (Hfg x b' Ef) as (b & -> & Hb).
    destruct (IH r eq_refl) as (k & -> & Hk). simpl.
    destruct b'.
    + rewrite Hb by done. exists (x :: k). split; [done | by apply sublist_skip].
    + destruct b; eexists; (split; [done |]); [by apply sublist_cons | done].
Qed.

(** X4. Typing on narrows the view, where the lower case of the term is
    found again in the lower case of the longer term (the case conversion
    may look at the characters that follow): when the search for the longer
    term completes, so does the search for the term alone, and it shows every
    record the longer term shows, in the same order. *)
Theorem longer_term_narrows (st : State) (term more : jsstring)
    (shown' : list (gmap string value)) :
  substring (toLowerCase term) (toLowerCase (term ++ more)) →
  calls (filterCDRs st (term ++ more)) = [setFilteredCdrs shown'] →
  ∃ shown,
    calls (filterCDRs st term) = [setFilteredCdrs shown]
    ∧ outcome (filterCDRs st term) = Normal tt
    ∧ shown' `sublist_of` shown.
Proof.
  intros Hsub. unfold filterCDRs, calls, outcome.
  destruct (negb (truthy (VString (trim (term ++ more))))) eqn:Elong.
  - intros [= <-]. apply blank_test, whitespace_only_app in Elong as [Hterm _].
    apply blank_test in Hterm. rewrite Hterm. by exists (cdrs st).
  - destruct (negb (truthy (VString (trim term)))).
    + destruct (array_filter (matches (term ++ more)) (cdrs st)) as [l'|e] eqn:E; cbn;
        [| discriminate].
      intros [= <-]. exists (cdrs st). repeat split. by eapply array_filter_sublist.
    + destruct (array_filter (matches (term ++ more)) (cdrs st)) as [l'|e] eqn:E;
        [| discriminate].
      intros [= <-].
      destruct (array_filter_narrows _ (matches term) _ _
                  (λ x b', matches_of_contained_term term (term ++ more) x b' Hsub) E)
        as (k & Hk & Hsubl).
      exists k. cbn. by rewrite Hk.
Qed.

End search.

Section search_at_work.
Local Existing Instance case_7bit.

Lemma search_throws_without_caller_witness :
  rec_bare ∈ cdrs (showing [rec1; rec_bare])
  ∧ is_string (prop rec_bare "caller") = false
  ∧ calls (handleSearch (showing [rec1; rec_bare]) "a") = [setSearchTerm "a"]
  ∧ outcome (handleSearch (showing [rec1; rec_bare]) "a") = Throw TypeError
  ∧ filteredCdrs (run (showing [rec1; rec_bare]) (handleSearch (showing [rec1; rec_bare]) "a"))
    = [rec1; rec_bare]
  ∧ searchTerm (run (showing [rec1; rec_bare]) (handleSearch (showing [rec1; rec_bare]) "a"))
    = "a".
Proof.
  assert (rec_bare ∈ cdrs (showing [rec1; rec_bare])) as Hin.
  { apply list_elem_of_further, list_elem_of_here. }
  split; [exact Hin |]. split; [reflexivity |].
  apply (search_throws_without_caller (showing [rec1; rec_bare]) "a" rec_bare Hin).
  - reflexivity.
  - simpl. intros [H _]. discriminate H.
Defined.

Lemma filterCDRs_ignores_case_witness :
  (whitespace_only "Qm" ↔ whitespace_only "qM")
  ∧ toLowerCase "Qm" = toLowerCase "qM"
  ∧ filterCDRs (showing [rec1; rec3]) "Qm" = filterCDRs (showing [rec1; rec3]) "qM".
Proof.
  assert (whitespace_only "Qm" ↔ whitespace_only "qM") as Hblank.
  { simpl. split; intros [H _]; discriminate H. }
  split; [exact Hblank |]. split; [reflexivity |].
  apply (filterCDRs_ignores_case (showing [rec1; rec3]) "Qm" "qM" Hblank). reflexivity.
Defined.

Lemma longer_term_narrows_witness :
  substring (toLowerCase "b") (toLowerCase (js "b" ++ js "o"))
  ∧ calls (filterCDRs (showing [rec1; rec2; rec3]) (js "b" ++ js "o"))
    = [setFilteredCdrs [rec3]]
  ∧ ∃ shown,
      calls (filterCDRs (showing [rec1; rec2; rec3]) "b") = [setFilteredCdrs shown]
      ∧ outcome (filterCDRs (showing [rec1; rec2; rec3]) "b") = Normal tt
      ∧ [rec3] `sublist_of` shown.
Proof.
  assert (substring (toLowerCase "b") (toLowerCase (js "b" ++ js "o"))) as Hsub.
  { exists [], (js "o"). reflexivity. }
  split; [exact Hsub |]. split; [reflexivity |].
  apply (longer_term_narrows (showing [rec1; rec2; rec3]) "b" "o" [rec3] Hsub).
  reflexivity.
Defined.

End search_at_work.

(** ** More on the counters *)

Section counters.

Lemma filter_length_Permutation {A} (f : A → bool) (l l' : list A) :
  l ≡ₚ l' → length (List.filter f l) = length (List.filter f l').
Proof.
  induction 1 as [|x l l' _ IH|x y l|l l' l'' _ IH1 _ IH2]; simpl.
  - done.
  - destruct (f x); simpl; by rewrite IH.
  - by destruct (f x), (f y).
  - by rewrite IH1.
Qed.

(** X5. No counter exceeds the total. *)
Theorem getStats_bounded (st : State) :
  verified (getStats st) ≤ total (getStats st)
  ∧ withIPFS (getStats st) ≤ total (getStats st)
  ∧ errors (getStats st) ≤ total (getStats st).
Proof. unfold getStats. simpl. repeat split; apply List.filter_length_le. Qed.

(** X6. The counters of records put one after the other are the sums of
    their counters, and the counters do not depend on the order of the
    records. *)
Theorem getStats_additive_and_unordered :
  (∀ st st1 st2 : State,
     cdrs st = cdrs st1 ++ cdrs st2 →
     total (getStats st) = total (getStats st1) + total (getStats st2)
     ∧ verified (getStats st) = verified (getStats st1) + verified (getStats st2)
     ∧ withIPFS (getStats st) = withIPFS (getStats st1) + withIPFS (getStats st2)
     ∧ errors (getStats st) = errors (getStats st1) + errors (getStats st2))
  ∧ (∀ st st' : State, cdrs st ≡ₚ cdrs st' → getStats st = getStats st').
Proof.
  split.
  - intros st st1 st2 H. unfold getStats. simpl. rewrite H.
    by rewrite !List.filter_app, !length_app.
  - intros st st' H. unfold getStats. f_equal.
    + by apply Permutation_length.
    + by apply filter_length_Permutation.
    + by apply filter_length_Permutation.
    + by apply filter_length_Permutation.
Qed.

Lemma getStats_additive_and_unordered_witness :
  (cdrs (showing [rec1; rec2; rec3]) = cdrs (showing [rec1]) ++ cdrs (showing [rec2; rec3])
   ∧ verified (getStats (showing [rec1; rec2; rec3]))
     = verified (getStats (showing [rec1])) + verified (getStats (showing [rec2; rec3])))
  ∧ (cdrs (showing [rec1; rec2]) ≡ₚ cdrs (showing [rec2; rec1])
     ∧ getStats (showing [rec1; rec2]) = getStats (showing [rec2; rec1])).
Proof.
  split.
  - split; [reflexivity |].
    apply (proj1 getStats_additive_and_unordered (showing [rec1; rec2; rec3])
             (showing [rec1]) (showing [rec2; rec3])).
    reflexivity.
  - assert (cdrs (showing [rec1; rec2]) ≡ₚ cdrs (showing [rec2; rec1])) as Hperm.
    { apply perm_swap. }
    split; [exact Hperm |].
    apply (proj2 getStats_additive_and_unordered _ _ Hperm).
Defined.

End counters.

(** ** More on the verification step *)

Section verification_more.

(** X7. A [verified] flag that comes with the listing is not looked at: the
    step gives the same result whatever the entries hold there. *)
Theorem incoming_verified_is_overwritten
    (api : cdrAPI) (objs : list (gmap string value)) (flag : gmap string value → value) :
  verifiedResults api ((λ o, VObject (<["verified" := flag o]> o)) <$> objs)
  = verifiedResults api (VObject <$> objs).
Proof.
  unfold verifiedResults. f_equal. rewrite !imap_fmap. apply imap_ext.
  intros i o _. unfold verify_one. simpl.
  unfold prop. rewrite lookup_insert_ne by done.
  destruct (verifyCDR api i (default VUndefined (o !! "ipfs_cid"))) as [res|e]; simpl.
  - destruct (get res "verified") as [v|e]; simpl; [by rewrite insert_insert_eq |].
    destruct (read_message e); simpl; [by rewrite insert_insert_eq | done].
  - destruct (read_message e); simpl; [by rewrite insert_insert_eq | done].
Qed.

Lemma verify_one_throws (api : cdrAPI) (i : nat) (cdr : value) (e : thrown) :
  verify_one api i cdr = Throw e ↔
  e = TypeError
  ∧ ∃ cid r, get cdr "ipfs_cid" = Normal cid
             ∧ verifyCDR api i cid = Throw r ∧ is_error r = false.
Proof.
  unfold verify_one.
  destruct (get cdr "ipfs_cid") as [cid|e0] eqn:Ecid; simpl.
  - destruct (verifyCDR api i cid) as [res|r] eqn:Eres; simpl.
    + split.
      * destruct res; simpl; discriminate.
      * intros (_ & cid' & r & [= <-] & Hr & _). congruence.
    + split.
      * destruct r as [|[]]; simpl; try discriminate; intros [= <-];
          (split; [done |]); eexists _, _; by repeat split.
      * intros (-> & cid' & r' & [= <-] & Hr & Herr).
        rewrite Eres in Hr. injection Hr as <-. by destruct r as [|[]].
  - split.
    + destruct cdr; simpl in Ecid; try discriminate; injection Ecid as <-; discriminate.
    + intros (_ & cid & r & H & _). discriminate H.
Qed.

Lemma promise_all_throws {A} (ps : list (completion A)) :
  (∃ e, promise_all ps = Throw e) ↔ ∃ i e, ps !! i = Some (Throw e).
Proof.
  induction ps as [|p ps IH]; simpl.
  - split; [by intros [e ?] | by intros (i & e & ?)].
  - destruct p as [a|e]; simpl.
    + destruct (promise_all ps) as [l|e'] eqn:E; simpl.
      * split; [by intros [e ?] |]. intros ([|i] & e & H); [done |].
        simpl in H. destruct (proj2 IH) as [e' He']; [eauto | done].
      * split; [| eauto]. intros _. destruct (proj1 IH) as (i & e & H); [eauto |].
        by exists (S i), e.
    + split; [| eauto]. intros _. by exists 0, e.
Qed.

Lemma promise_all_throws_at {A} (ps : list (completion A)) (e : thrown) :
  promise_all ps = Throw e → ∃ i, ps !! i = Some (Throw e).
Proof.
  induction ps as [|p ps IH]; simpl; [discriminate |].
  destruct p as [a|e0]; simpl.
  - destruct (promise_all ps) as [l|e0]; simpl; [discriminate |].
    intros [= <-]. destruct (IH eq_refl) as [i Hi]. by exists (S i).
  - intros [= <-]. by exists 0.
Qed.

(** X8. The verification step rejects in one case only: some verification
    call was made and rejected with [undefined] or [null] as its reason.  It
    then rejects with the [TypeError] of the handler's log line. *)
Theorem verification_rejects_exactly (api : cdrAPI) (records : list value) :
  ((∃ e, verifiedResults api records = Throw e) ↔
   ∃ i cdr cid r,
     records !! i = Some cdr ∧ get cdr "ipfs_cid" = Normal cid
     ∧ verifyCDR api i cid = Throw r ∧ is_error r = false)
  ∧ (∀ e, verifiedResults api records = Throw e → e = TypeError).
Proof.
  assert (∀ e, verifiedResults api records = Throw e → e = TypeError) as Htype.
  { intros e H. apply promise_all_throws_at in H as [i Hi].
    rewrite list_lookup_imap in Hi.
    destruct (records !! i) as [cdr|]; simpl in Hi; [| discriminate].
    injection Hi as Hi. by apply verify_one_throws in Hi as [-> _]. }
  split; [| done]. unfold verifiedResults. rewrite promise_all_throws. split.
  - intros (i & e & Hi). rewrite list_lookup_imap in Hi.
    destruct (records !! i) as [cdr|] eqn:Hcdr; simpl in Hi; [| discriminate].
    injection Hi as Hi. apply verify_one_throws in Hi as (_ & cid & r & H1 & H2 & H3).
    by exists i, cdr, cid, r.
  - intros (i & cdr & cid & r & Hcdr & H1 & H2 & H3).
    exists i, TypeError. rewrite list_lookup_imap, Hcdr. simpl. f_equal.
    apply verify_one_throws. split; [done |]. by exists cid, r.
Qed.

End verification_more.

(** ** More on the refresh *)

Section refresh_more.
Context {casing : CaseMapping}.

(** The state a refresh leaves, on its two branches. *)
Lemma run_fetchCDRs (api : cdrAPI) (now : Z) (st : State) :
  run st (fetchCDRs api now) =
    match fetched api with
    | Normal results =>
        mkState results (filteredCdrs st) false None (searchTerm st) now
    | Throw _ =>
        mkState (cdrs st) (filteredCdrs st) false (Some fetch_failed) (searchTerm st)
          (lastRefresh st)
    end.
Proof.
  unfold run. destruct (fetchCDRs_calls api now) as [-> _].
  by destruct (fetched api).
Qed.

(** X9. A listing that is [undefined] or [null], or whose [cdrs] is truthy
    without being an array, ends the refresh on its failure branch: the
    message is set and the records stay. *)
Theorem malformed_listing_fails
    (api : cdrAPI) (now : Z) (st : State) (response : value) :
  getAllCDRs api = Normal response →
  (response = VUndefined ∨ response = VNull
   ∨ ∃ c, get response "cdrs" = Normal c ∧ truthy c = true ∧ ∀ l, c ≠ VArray l) →
  calls (fetchCDRs api now)
  = [setLoading true; setError None; setError (Some fetch_failed); setLoading false]
  ∧ cdrs (run st (fetchCDRs api now)) = cdrs st
  ∧ error (run st (fetchCDRs api now)) = Some fetch_failed.
Proof.
  intros Hres Hbad.
  assert (fetched api = Throw TypeError) as Hfetched.
  { unfold fetched. rewrite Hres. simpl.
    destruct Hbad as [-> | [-> | (c & -> & Hc & Harr)]]; [done | done |].
    simpl. rewrite Hc. destruct c; try done. by destruct (Harr l). }
  rewrite run_fetchCDRs, (fetchCDRs_failed api now TypeError Hfetched).
  by rewrite Hfetched.
Qed.

Lemma malformed_listing_fails_witness :
  getAllCDRs api_object_cdrs = Normal (VObject {[ "cdrs" := VObject ∅ ]})
  ∧ calls (fetchCDRs api_object_cdrs later)
    = [setLoading true; setError None; setError (Some fetch_failed); setLoading false]
  ∧ cdrs (run (showing [rec1]) (fetchCDRs api_object_cdrs later)) = [rec1]
  ∧ error (run (showing [rec1]) (fetchCDRs api_object_cdrs later)) = Some fetch_failed.
Proof.
  split; [reflexivity |].
  apply (malformed_listing_fails api_object_cdrs later (showing [rec1])
           (VObject {[ "cdrs" := VObject ∅ ]})); [reflexivity |].
  right. right. exists (VObject ∅). split; [reflexivity |]. split; [reflexivity |].
  intros l H. discriminate H.
Defined.

(** X10. When the failures of the client are errors, a listing whose [cdrs]
    is an array, whatever its entries are, refreshes without error, and the
    total of the counters is then the length of that array. *)
Theorem refresh_total_is_listing_length
    (api : cdrAPI) (now : Z) (st : State) (response : value) (records : list value) :
  fails_with_error api →
  getAllCDRs api = Normal response →
  get response "cdrs" = Normal (VArray records) →
  total (getStats (run st (fetchCDRs api now))) = length records
  ∧ error (run st (fetchCDRs api now)) = None.
Proof.
  intros Herr Hres Hcdrs. rewrite run_fetchCDRs.
  unfold fetched. rewrite Hres. simpl. rewrite Hcdrs. simpl.
  rewrite (verifiedResults_verdict api Herr). simpl. by rewrite length_imap.
Qed.

Lemma refresh_total_is_listing_length_witness :
  fails_with_error (api_fail_at 1)
  ∧ getAllCDRs (api_fail_at 1) = listing [rec1; rec2]
  ∧ total (getStats (run mounted (fetchCDRs (api_fail_at 1) later))) = 2
  ∧ error (run mounted (fetchCDRs (api_fail_at 1) later)) = None.
Proof.
  assert (fails_with_error (api_fail_at 1)) as Herr.
  { intros i c e. simpl. destruct (Nat.eqb i 1); intros [= <-]. reflexivity. }
  split; [exact Herr |]. split; [reflexivity |].
  exact (refresh_total_is_listing_length (api_fail_at 1) later mounted
           (VObject {[ "cdrs" := VArray (VObject <$> [rec1; rec2]) ]})
           (VObject <$> [rec1; rec2]) Herr eq_refl eq_refl).
Defined.

Lemma is_record_verified (o : gmap string value) (b : bool) :
  is_record o = true → is_record (<["verified" := VBool b]> o) = true.
Proof.
  unfold is_record, prop. rewrite !andb_true_iff.
  rewrite !lookup_insert_ne by done. rewrite lookup_insert_eq. simpl. tauto.
Qed.

Lemma handleSearch_completes (st : State) (term : jsstring) :
  Forall (λ cdr, is_record cdr = true) (cdrs st) →
  outcome (handleSearch st term) = Normal tt.
Proof.
  intros Hrec. unfold handleSearch, filterCDRs, outcome.
  destruct (negb (truthy (VString (trim term)))); [done |].
  destruct (array_filter_selects (matches term) (term_matches term) (cdrs st))
    as (shown & Hshown & _).
  { eapply Forall_impl; [exact Hrec |]. intros cdr Hcdr. by apply matches_spec. }
  cbn. by rewrite Hshown.
Qed.

(** X11. With a client that answers as its interface says, a listing of
    records leaves records in the state, so that no search throws after
    it. *)
Theorem typed_listing_keeps_search_safe
    (api : cdrAPI) (now : Z) (st : State) (response : value)
    (objs : list (gmap string value)) :
  conforms api →
  getAllCDRs api = Normal response →
  get response "cdrs" = Normal (VArray (VObject <$> objs)) →
  Forall (λ o, is_record o = true) objs →
  Forall (λ cdr, is_record cdr = true) (cdrs (run st (fetchCDRs api now)))
  ∧ ∀ term, outcome (handleSearch (run st (fetchCDRs api now)) term) = Normal tt.
Proof.
  intros Hapi Hres Hcdrs Hobjs.
  assert (Forall (λ cdr, is_record cdr = true) (cdrs (run st (fetchCDRs api now)))) as Hrec.
  { rewrite run_fetchCDRs. unfold fetched. rewrite Hres. simpl. rewrite Hcdrs. simpl.
    rewrite (verifiedResults_verdict api (conforms_fails_with_error api Hapi)). simpl.
    apply Forall_lookup. intros i cdr.
    rewrite list_lookup_imap, list_lookup_fmap.
    destruct (objs !! i) as [o|] eqn:Ho; simpl; [| discriminate].
    intros [= <-]. destruct (conforms_verdict api i (VObject o) Hapi) as [b ->].
    apply is_record_verified. by apply (proj1 (Forall_lookup _ _) Hobjs i). }
  split; [done |]. intros term. by apply handleSearch_completes.
Qed.

End refresh_more.

Section refresh_at_work.
Local Existing Instance case_7bit.

Lemma typed_listing_keeps_search_safe_witness :
  conforms api_ok
  ∧ Forall (λ o, is_record o = true) [rec1; rec2]
  ∧ Forall (λ cdr, is_record cdr = true) (cdrs (run mounted (fetchCDRs api_ok later)))
  ∧ ∀ term, outcome (handleSearch (run mounted (fetchCDRs api_ok later)) term) = Normal tt.
Proof.
  assert (conforms api_ok) as Hapi.
  { intros i cid. simpl. eexists _, true. split; reflexivity. }
  assert (Forall (λ o, is_record o = true) [rec1; rec2]) as Hobjs.
  { repeat constructor. }
  split; [exact Hapi |]. split; [exact Hobjs |].
  apply (typed_listing_keeps_search_safe api_ok later mounted
           (VObject {[ "cdrs" := VArray (VObject <$> [rec1; rec2]) ]}) [rec1; rec2] Hapi);
    [reflexivity | reflexivity | exact Hobjs].
Defined.

End refresh_at_work.

(** ** The life of the component *)

Section lifecycle.
Context {casing : CaseMapping}.

Lemma filterCDRs_calls (st : State) (term : jsstring) :
  calls (filterCDRs st term) = []
  ∨ ∃ shown, calls (filterCDRs st term) = [setFilteredCdrs shown]
             ∧ shown `sublist_of` cdrs st.
Proof.
  unfold filterCDRs, calls.
  destruct (negb (truthy (VString (trim term)))); [right; by exists (cdrs st) |].
  destruct (array_filter (matches term) (cdrs st)) as [shown|e] eqn:E; cbn; [| by left].
  right. exists shown. split; [done |]. by eapply array_filter_sublist.
Qed.

(** The filter reads the records of the state and nothing else of it. *)
Lemma filterCDRs_reads_cdrs (st st' : State) (term : jsstring) :
  cdrs st = cdrs st' → filterCDRs st term = filterCDRs st' term.
Proof. intros H. unfold filterCDRs. by rewrite H. Qed.

Lemma handleSearch_calls (st : State) (term : jsstring) :
  calls (handleSearch st term) = setSearchTerm term :: calls (filterCDRs st term).
Proof.
  unfold handleSearch, calls. cbn.
  by destruct (filterCDRs st term) as [us [[]|e]].
Qed.

(** X12. A refresh leaves the search term and the filtered view as they are,
    so the view keeps showing the records of before until the re-filter
    effect runs; a search and the re-filter effect leave the records, the
    loading flag, the error and the timestamp as they are. *)
Theorem handlers_frames (st : State) :
  (∀ api now,
     searchTerm (run st (fetchCDRs api now)) = searchTerm st
     ∧ filteredCdrs (run st (fetchCDRs api now)) = filteredCdrs st)
  ∧ (∀ term,
       cdrs (run st (handleSearch st term)) = cdrs st
       ∧ loading (run st (handleSearch st term)) = loading st
       ∧ error (run st (handleSearch st term)) = error st
       ∧ lastRefresh (run st (handleSearch st term)) = lastRefresh st)
  ∧ cdrs (run st (refilter st)) = cdrs st
  ∧ loading (run st (refilter st)) = loading st
  ∧ error (run st (refilter st)) = error st
  ∧ lastRefresh (run st (refilter st)) = lastRefresh st
  ∧ searchTerm (run st (refilter st)) = searchTerm st.
Proof.
  split; [| split].
  - intros api now. rewrite run_fetchCDRs. by destruct (fetched api).
  - intros term. unfold run. rewrite handleSearch_calls.
    by destruct (filterCDRs_calls st term) as [-> | (shown & -> & _)].
  - unfold run, refilter.
    by destruct (filterCDRs_calls st (searchTerm st)) as [-> | (shown & -> & _)].
Qed.

(** X13. A search is the setting of the term followed by the re-filter
    effect, and the effect run once more after it changes nothing. *)
Theorem refilter_after_search_is_idle (st : State) (term : jsstring) :
  run st (handleSearch st term)
  = run (apply_update st (setSearchTerm term))
        (refilter (apply_update st (setSearchTerm term)))
  ∧ run (run st (handleSearch st term)) (refilter (run st (handleSearch st term)))
    = run st (handleSearch st term).
Proof.
  assert (∀ st0, cdrs st0 = cdrs st → searchTerm st0 = term →
                 filterCDRs st0 (searchTerm st0) = filterCDRs st term) as Hsame.
  { intros st0 Hc ->. by apply filterCDRs_reads_cdrs. }
  split.
  - unfold run at 1 2, refilter. rewrite handleSearch_calls, Hsame by done. done.
  - unfold run at 1, refilter. rewrite Hsame.
    + unfold run. rewrite handleSearch_calls.
      by destruct (filterCDRs_calls st term) as [-> | (shown & -> & _)].
    + unfold run. rewrite handleSearch_calls.
      by destruct (filterCDRs_calls st term) as [-> | (shown & -> & _)].
    + unfold run. rewrite handleSearch_calls.
      by destruct (filterCDRs_calls st term) as [-> | (shown & -> & _)].
Qed.

Lemma verify_one_has_verified (api : cdrAPI) (i : nat) (cdr : value)
    (o : gmap string value) :
  verify_one api i cdr = Normal o → has_verified o.
Proof.
  unfold verify_one, has_verified.
  destruct (get cdr "ipfs_cid") as [cid|e]; simpl.
  - destruct (verifyCDR api i cid) as [res|e]; simpl.
    + destruct (get res "verified") as [v|e]; simpl.
      * intros [= <-]. by rewrite lookup_insert_eq.
      * destruct (read_message e); simpl; [| discriminate].
        intros [= <-]. by rewrite lookup_insert_eq.
    + destruct (read_message e); simpl; [| discriminate].
      intros [= <-]. by rewrite lookup_insert_eq.
  - destruct (read_message e); simpl; [| discriminate].
    intros [= <-]. by rewrite lookup_insert_eq.
Qed.

Lemma fetched_has_verified (api : cdrAPI) (results : list (gmap string value)) :
  fetched api = Normal results → Forall has_verified results.
Proof.
  unfold fetched.
  destruct (getAllCDRs api) as [response|e]; simpl; [| discriminate].
  destruct (get response "cdrs") as [c|e]; simpl; [| discriminate].
  destruct (elements_for_map _) as [elems|e]; simpl; [| discriminate].
  unfold verifiedResults. intros H%promise_all_Normal.
  apply Forall_lookup. intros i o Ho.
  apply (f_equal (λ l, l !! i)) in H.
  rewrite list_lookup_imap, list_lookup_fmap, Ho in H.
  destruct (elems !! i) as [cdr|]; simpl in H; [| discriminate].
  injection H as H. by eapply verify_one_has_verified.
Qed.

Lemma sublist_Forall {A} (P : A → Prop) (l k : list A) :
  l `sublist_of` k → Forall P k → Forall P l.
Proof.
  intros Hsub%sublist_subseteq. rewrite !Forall_forall. intros H x Hx.
  apply H. by apply Hsub.
Qed.

(** X14. Whatever happens to the component, every record it holds, in the
    records and in the filtered view, has a [verified] property of its
    own. *)
Theorem records_always_carry_verified (t0 : Z) (evs : list event) :
  Forall has_verified (cdrs (after t0 evs))
  ∧ Forall has_verified (filteredCdrs (after t0 evs)).
Proof.
  unfold after. induction evs as [|ev evs IH] using rev_ind.
  - split; constructor.
  - rewrite foldl_snoc. destruct IH as [IH1 IH2].
    set (st := foldl handle (initial t0) evs) in *.
    destruct ev as [api now|term| |]; simpl.
    + rewrite run_fetchCDRs. destruct (fetched api) as [results|e] eqn:E; simpl; [| done].
      split; [by eapply fetched_has_verified | done].
    + unfold run. rewrite handleSearch_calls.
      destruct (filterCDRs_calls st term) as [-> | (shown & -> & Hsub)]; simpl; [done |].
      split; [done | by eapply sublist_Forall].
    + unfold run, refilter.
      destruct (filterCDRs_calls st (searchTerm st)) as [-> | (shown & -> & Hsub)];
        simpl; [done |].
      split; [done | by eapply sublist_Forall].
    + done.
Qed.

(** X15. Whatever happens to the component, its error is [null] or the one
    fixed message, and after a refresh it tells how that refresh ended. *)
Theorem error_is_null_or_fixed (t0 : Z) (evs : list event) :
  (error (after t0 evs) = None ∨ error (after t0 evs) = Some fetch_failed)
  ∧ ∀ api now,
      (error (after t0 (evs ++ [Refresh api now])) = None
       ↔ ∃ results, fetched api = Normal results)
      ∧ loading (after t0 (evs ++ [Refresh api now])) = false.
Proof.
  unfold after. split.
  - induction evs as [|ev evs IH] using rev_ind; [by left |].
    rewrite foldl_snoc. set (st := foldl handle (initial t0) evs) in *.
    destruct ev as [api now|term| |]; simpl.
    + rewrite run_fetchCDRs. destruct (fetched api); simpl; eauto.
    + unfold run. rewrite handleSearch_calls.
      by destruct (filterCDRs_calls st term) as [-> | (shown & -> & _)].
    + unfold run, refilter.
      by destruct (filterCDRs_calls st (searchTerm st)) as [-> | (shown & -> & _)].
    + by left.
  - intros api now. rewrite foldl_snoc. simpl. rewrite run_fetchCDRs.
    destruct (fetched api) as [results|e]; simpl; split; try done.
    + split; eauto.
    + split; [discriminate | by intros [? ?]].
Qed.

(** X16. After refreshes run one after another, the records and the
    timestamp are those of the last refresh that succeeded, or the ones held
    before when none did: a failed refresh in between undoes nothing. *)
Theorem refreshes_keep_last_success (st : State) (ticks : list (cdrAPI * Z)) :
  cdrs (refreshes st ticks)
  = match last_success ticks with Some r => r.1 | None => cdrs st end
  ∧ lastRefresh (refreshes st ticks)
    = match last_success ticks with Some r => r.2 | None => lastRefresh st end.
Proof.
  unfold refreshes. revert st. induction ticks as [|[api now] ticks IH]; intros st.
  - done.
  - cbn [foldl last_success fst snd]. destruct (IH (run st (fetchCDRs api now))) as [-> ->].
    destruct (last_success ticks) as [r|]; [done |].
    rewrite run_fetchCDRs. by destruct (fetched api).
Qed.

Lemma apply_updates_cdrs (us : list update) (st : State) :
  cdrs (apply_updates st us) = cdrs st
  ∨ setCdrs (cdrs (apply_updates st us)) ∈ us.
Proof.
  unfold apply_updates. revert st. induction us as [|u us IH]; intros st; [by left |].
  simpl. destruct (IH (apply_update st u)) as [H | H].
  - rewrite H. destruct u; simpl; try (by left).
    right. apply list_elem_of_here.
  - right. by apply list_elem_of_further.
Qed.

Lemma interleaved_elem_of {A} (l1 l2 m : list A) (x : A) :
  interleaved l1 l2 m → x ∈ m → x ∈ l1 ∨ x ∈ l2.
Proof.
  induction 1 as [|y l1 l2 m _ IH|y l1 l2 m _ IH]; intros Hx.
  - by apply elem_of_nil in Hx.
  - apply elem_of_cons in Hx as [-> | Hx].
    + left. apply list_elem_of_here.
    + destruct (IH Hx); [left; by apply list_elem_of_further | by right].
  - apply elem_of_cons in Hx as [-> | Hx].
    + right. apply list_elem_of_here.
    + destruct (IH Hx); [by left | right; by apply list_elem_of_further].
Qed.

Lemma interleaved_nil_inv {A} (l1 l2 : list A) :
  interleaved l1 l2 [] → l1 = [] ∧ l2 = [].
Proof. by inversion 1. Qed.

(** Where both runs of calls end with the same call, so does any way of
    running them together. *)
Lemma interleaved_last {A} (l1 l2 m : list A) (x : A) :
  interleaved l1 l2 m →
  (l1 = [] ∨ last l1 = Some x) → (l2 = [] ∨ last l2 = Some x) →
  m = [] ∨ last m = Some x.
Proof.
  induction 1 as [|y l1 l2 m Hm IH|y l1 l2 m Hm IH]; intros H1 H2; [by left | |]; right.
  - destruct H1 as [H1 | H1]; [done |]. rewrite last_cons in H1 |- *.
    destruct (last l1) as [z|] eqn:E1.
    + destruct IH as [-> | ->]; [by right | done | | done].
      apply interleaved_nil_inv in Hm as [-> _]. discriminate E1.
    + apply last_None in E1 as ->. destruct IH as [-> | ->]; [by left | done | done..].
  - destruct H2 as [H2 | H2]; [done |]. rewrite last_cons in H2 |- *.
    destruct (last l2) as [z|] eqn:E2.
    + destruct IH as [-> | ->]; [done | by right | | done].
      apply interleaved_nil_inv in Hm as [_ ->]. discriminate E2.
    + apply last_None in E2 as ->. destruct IH as [-> | ->]; [done | by left | done..].
Qed.

Lemma setCdrs_in_fetchCDRs (api : cdrAPI) (now : Z) (l : list (gmap string value)) :
  setCdrs l ∈ calls (fetchCDRs api now) → fetched api = Normal l.
Proof.
  destruct (fetchCDRs_calls api now) as [-> _].
  destruct (fetched api) as [results|e]; intros H.
  - repeat (apply elem_of_cons in H as [H | H]; [try discriminate H |]).
    + by injection H as ->.
    + by apply elem_of_nil in H.
  - repeat (apply elem_of_cons in H as [H | H]; [discriminate H |]).
    by apply elem_of_nil in H.
Qed.

Lemma fetchCDRs_last (api : cdrAPI) (now : Z) :
  last (calls (fetchCDRs api now)) = Some (setLoading false).
Proof. destruct (fetchCDRs_calls api now) as [-> _]. by destruct (fetched api). Qed.

(** X17. When two refreshes overlap, in whatever order their setter calls
    fall, once both are over the loading flag is off, and the records are
    those held before or the verified listing of one of the two refreshes:
    never a mixture of both. *)
Theorem overlapping_refreshes
    (api1 api2 : cdrAPI) (now1 now2 : Z) (st : State) (m : list update) :
  interleaved (calls (fetchCDRs api1 now1)) (calls (fetchCDRs api2 now2)) m →
  loading (apply_updates st m) = false
  ∧ (cdrs (apply_updates st m) = cdrs st
     ∨ fetched api1 = Normal (cdrs (apply_updates st m))
     ∨ fetched api2 = Normal (cdrs (apply_updates st m))).
Proof.
  intros Hm. split.
  - destruct (interleaved_last _ _ _ (setLoading false) Hm) as [-> | Hlast].
    + right. apply fetchCDRs_last.
    + right. apply fetchCDRs_last.
    + apply interleaved_nil_inv in Hm as [H1 _].
      pose proof (fetchCDRs_last api1 now1) as H. rewrite H1 in H. discriminate H.
    + apply last_Some in Hlast as [m' ->].
      unfold apply_updates. by rewrite foldl_snoc.
  - destruct (apply_updates_cdrs m st) as [H | H]; [by left |].
    right. destruct (interleaved_elem_of _ _ _ _ Hm H) as [H1 | H2].
    + left. by eapply setCdrs_in_fetchCDRs.
    + right. by eapply setCdrs_in_fetchCDRs.
Qed.

Lemma overlapping_refreshes_witness :
  interleaved (calls (fetchCDRs api_ok later)) (calls (fetchCDRs api_down later)) overlap_run
  ∧ loading (apply_updates mounted overlap_run) = false
  ∧ (cdrs (apply_updates mounted overlap_run) = cdrs mounted
     ∨ fetched api_ok = Normal (cdrs (apply_updates mounted overlap_run))
     ∨ fetched api_down = Normal (cdrs (apply_updates mounted overlap_run))).
Proof.
  assert (interleaved (calls (fetchCDRs api_ok later)) (calls (fetchCDRs api_down later))
            overlap_run) as Hm.
  { apply (interleaved_l (setLoading true)), (interleaved_r (setLoading true)),
      (interleaved_l (setError None)), (interleaved_r (setError None)),
      (interleaved_l (setCdrs _)), (interleaved_l (setLastRefresh later)),
      (interleaved_l (setLoading false)), (interleaved_r (setError (Some fetch_failed))),
      (interleaved_r (setLoading false)), interleaved_nil. }
  split; [exact Hm |].
  exact (overlapping_refreshes api_ok api_down later later mounted overlap_run Hm).
Defined.

End lifecycle.
